(* ===== verification/_CoqProject ===== *)
-Q . S2P
Prelude.v
StdMap.v
Atoi.v
Expat.v
LiteDoc.v
Handlers.v
Loader.v
Store.v
EndToEnd.v
Race.v
