(* ===== verification/Prelude.v ===== *)
(** * A verification development of libsecnativefeature

    The program is one C++ file,
    [src/ril/libsecnativefeature/SecNativeFeatureCppIf.cpp]. It is a
    process-wide feature-flag store. On first use, the singleton
    [SecNativeFeature] reads a feature XML file through the expat
    streaming parser into a [std::map<std::string, std::string>]. After
    that it answers typed queries ([getEnableStatus], [getString],
    [getInteger]) with defaults.

    ** Files, and the part of the program each one models

    - [Prelude.v] (this file): the scope [snf_scope] with the notation
      [a ==s b] for [strcmp(a, b) == 0], the hint databases [snf] and
      [snf_rw], the tactics [case_streq] and [decide_concrete], and
      lemmas on strings, substrings and lists shared by the files.
    - [StdMap.v] covers [_features], a [std::map<std::string,std::string>].
      The class [StdMap] lists the library operations the source calls
      ([find], [erase], hinted [insert]). The class [StdMapSpec] states
      their laws as a refinement of an stdpp [gmap]. The handlers and
      the store are proved against these classes only. The module
      [SortedAssoc] implements them as a list sorted by [std::string]'s
      byte order ([find], [erase], [insert_hint], [begin], [clear]).
      [SortedAssocProps] proves the simulation and that the
      representation is canonical.
    - [Atoi.v] covers bionic's [atoi], which [getInteger] calls:
      [strtol(s, NULL, 10)] saturating at a 32-bit [long], then the
      conversion to [int]. The sharkls devices are 32-bit ARM.
    - [Expat.v] covers the expat library, which is not code of this
      repository. The class [ExpatParser] is the interface
      ([XML_ParserCreate], and [XML_Parse] returning the callbacks it
      fires and its status), and the loader is proved against it.
      Two laws on parsers: [ExpatStreaming] (the events do not depend
      on the split into buffers) and the weaker [ExpatCoalescing]
      (they do not depend on it up to merging adjacent character
      data, [coalesce]), which is what expat guarantees.
      [Expat.Lite] is a small executable parser for a subset of XML:
      it buffers its input until the final call, then reports the
      callbacks of the whole document.
    - [LiteDoc.v] prints feature documents ([feature_doc]: a root
      element and one element per tag, with [<] and [&] escaped as
      entities) and proves that [Lite] accepts them and reports
      exactly [feature_events], the value of each tag as the fragments
      expat would give: each entity and each newline apart.
    - [Handlers.v] covers [ParserUserData], [charDataHandler],
      [startElement] and [endElement]. The pointer [pFeatures] aliases
      the store's map. The model keeps the map itself in the field, and
      [Loader.v] returns it on every exit, so writes made before a
      failure stay visible, as in the source.
    - [Loader.v] covers [_loadFeature]. It uses a file system model
      (contents, readability, an optional read fault), [fopen], [fread]
      with [BUFSIZ], [ferror] and [fclose], and counters of open [FILE]s
      and live expat parsers. The do-while loop is [parse_loop].
    - [Store.v] covers the constructor (the override file
      [/data/omc/others.xml], then the pair [/system/csc/feature.xml],
      [/system/csc/others.xml], then the warning), [getInstance] on the
      static [_instance], the six accessors (the two-argument overloads
      carry a [_default] suffix), the destructor, and [api_step]: one
      client call [getInstance()->get...()]. The inductive [reachable]
      collects the states a process reaches.
    - [EndToEnd.v] composes the components with [Lite] as the parser:
      [_loadFeature] on a file of any length, read in [BUFSIZ]
      buffers, with or without a read fault, and the constructor and
      [getString] on a feature document.
    - [Race.v] covers [getInstance] called from several threads. Each
      thread is a program counter over the three accesses to
      [_instance]: the NULL test, the assignment of the new object,
      and the read of the return. A schedule interleaves the threads,
      and objects carry allocation numbers.

    ** What the theorems show (claims C1 to C36, by importance)

    - Accessors (C1-C3, C5): the results on every branch. This includes
      the RIL version override (11) for both [getInteger] overloads,
      and the fact that the two-argument [getEnableStatus] returns the
      default even for a present "false". Through [getInteger] (C24,
      C25): a non-numeric value such as "true" reads as 0, not as the
      default, and a value beyond the range of [long] saturates at
      [INT_MAX] or [INT_MIN] with no error.
    - Round trips through the whole store (C6-C8): on a feature
      document of any length, [getString] returns every value exactly,
      entities and newlines included, and [getInteger] returns every
      [int] printed in decimal. The constructor's map holds exactly the
      non-empty entries.
    - Callbacks (C9, C10, C32-C35): fragments are concatenated. Text
      after a nested close is dropped. Every sequence of callbacks
      refines reference handlers on a [gmap] ([abs_handle]), in which
      character data appends to the open element's key: the
      erase-then-insert is that append. [depth] counts opens minus
      closes and is never read. Keys come from element names.
    - Constructor and singleton (C12-C15, C22, C23, C36): the file
      policy, including a failed override file whose entries leak into
      the fallback load, and a missing file. The singleton is
      initialised once, and every later call answers from the one
      loaded map. The spec's scenario document [<A>true</A><B>7</B>],
      for every pair of tags and texts, is rejected after its first
      element, so the second tag reads as absent and the warning is
      logged. The destructor never returns while [_instance] is set.
    - Loader (C11, C17-C21, C26, C27): the fallback happens only when
      [fopen] fails. For every parser with the streaming law, a
      fault-free file of any length loads as its whole contents, so
      the split into buffers does not matter (C17). For every parser
      with the weaker law expat satisfies, where character data may be
      split anywhere, the status and resources are the same and the
      map has the same contents (C18). For every parser, a read fault
      gives -1 and the map keeps the callbacks of the full buffers
      read before it. The file is always closed, and the parser is
      leaked on every failure. Entries stored before a parse error
      survive. The loop terminates. A one-buffer load works end to end.
    - Threads (C4, C16, C28-C31): without a lock, all [n] threads can
      pass the NULL test before any assigns, so the constructor runs
      [n] times; as the return re-reads [_instance], they all return
      the last object and the others leak (C16). Another interleaving
      gives two callers two different objects (C29). Under every
      schedule the state stays well formed ([race_wf]: [_instance] is
      the last object built, every returned thread holds an allocated
      object, no thread reads a NULL [_instance] at the return, and the
      constructor runs at most once per thread), and a thread
      scheduled three times has returned. Every returned thread holds
      an object equal to the one the constructor builds from the start
      (C31): the constructor's map depends on the files alone, so a
      duplicate construction costs a second load and a leak, never a
      disagreement between readers. So every accessor call on a
      returned object answers as the sequential program does in every
      reachable state (C4).
    - [atoi] and [std::map] are libraries. [Atoi.v] and [StdMap.v]
      prove the facts about their models that the claims use (decimal
      round trip, saturation, the simulation of the sorted list by a
      [gmap]), but these are not claims about the program.

    ** Bounds and fuel

    - [BUFSIZ] = 1024, bionic's value. [parse_loop] reads one buffer
      per iteration and stops at the first short read, so
      [load_fuel fp] = [(length contents - pos) / BUFSIZ + 1]
      iterations are enough ([parse_loop_some], C26). [_loadFeature]
      therefore never takes its out-of-fuel branch. C17 and C19 hold
      for files of every length, so no bound on the file size is
      assumed.
    - [Lite.parse_document] runs its lexer with one step of fuel per
      character plus one. Every step consumes at least one character,
      and [feature_doc_parses] counts the steps of a feature document
      ([elements_cost]), which is less than its length.
    - [long] and [int] are 32 bits. [atoi] clamps the exact value to
      [LONG_MIN, LONG_MAX], which is what bionic's [strtol] computes.
    - [destroy] takes fuel, standing for stack depth. C36 shows that no
      fuel suffices once [_instance] is set.
    - [depth] is kept in [Z]. A nesting of 2^31 elements is beyond any
      feature file, and the code never reads the value.

    ** Not modelled

    - Expat's own parsing. The loader's theorems hold for every
      [ExpatParser], C17 for every parser with the streaming law
      [ExpatStreaming], and C18 for every parser with the weaker law
      [ExpatCoalescing]. Real expat splits character data at buffer
      ends, so it satisfies only the weaker law; C18 shows that this
      changes nothing in the map's contents. C6, C7, C8 and C23 use
      [Lite], which reports nothing before the final buffer, where
      expat reports callbacks as it goes. Their statements are about
      complete loads.
    - The header [SecNativeFeatureTagAll.h] is not in [src/]. Its
      [TAG_CSCFEATURE_RIL_CONFIGRILVERSION] takes the value the spec
      gives.
    - [ALOGW] appends its message to a log list.
    - Allocation failure. [new SecNativeFeature()] and
      [XML_ParserCreate] are taken to succeed. The source does not
      test the parser for NULL; what follows a NULL parser depends on
      the expat version's argument checks, which are not code of this
      repository.
    - The memory order of the unsynchronised [_instance] in [Race.v]:
      each step is atomic and sequentially consistent. On a weaker
      model a reader may also see a pointer before the object it points
      to, which is outside this model.

    ** Extent

    Every line of the source that is code (not an include, comment or
    blank line) is translated by a mapped definition. The libraries it
    calls ([std::map], [atoi], stdio, expat, logging) are modelled
    through the operations the source uses and the laws it relies on.
    The models of [std::map], [atoi] and expat are not mapped to
    source lines, since they translate no code of this repository;
    the stdio calls are mapped to the lines of [_loadFeature] that
    make them.
    The claims cover every function of the source on every branch.
    What is left is library behaviour, listed above. Modelling it
    faithfully would need code that is not in [src/]: expat's parser,
    its NULL checks, or the memory model of the compiler and CPU.
    *)

From Stdlib Require Export String Ascii ZArith Lia.
From stdpp Require Export base gmap strings list.

(** This file: the shared notation scope, tactics, hint database and
    generic lemmas on strings and options. *)

Declare Scope snf_scope.
Delimit Scope snf_scope with snf.

(** C string literal comparison, [strcmp(a, b) == 0]. *)
Notation "a ==s b" := (String.eqb a b) (at level 70, no associativity) : snf_scope.

Create HintDb snf discriminated.
Create Rewrite HintDb snf_rw.

(** Strings *)

(** stdpp declares [String.append] [simpl never]; this is its
    computation rule. *)
Lemma string_app_cons (x : ascii) (a b : string) :
  (String x a ++ b)%string = String x (a ++ b).
Proof. reflexivity. Qed.

Lemma string_app_assoc (a b c : string) :
  (a ++ (b ++ c))%string = ((a ++ b) ++ c)%string.
Proof.
  induction a as [|x a IH]; [done|].
  by rewrite !string_app_cons, IH.
Qed.

Lemma string_app_nil_r (a : string) : (a ++ "")%string = a.
Proof.
  induction a as [|x a IH]; [done|].
  by rewrite string_app_cons, IH.
Qed.

Lemma string_app_nil_l (a : string) : ("" ++ a)%string = a.
Proof. done. Qed.

Lemma string_app_length (a b : string) :
  String.length (a ++ b) = String.length a + String.length b.
Proof. induction a as [|x a IH]; [done|]. rewrite string_app_cons. simpl. by rewrite IH. Qed.

Lemma string_eqb_refl (s : string) : String.eqb s s = true.
Proof. apply String.eqb_refl. Qed.

Lemma string_eqb_neq (a b : string) : a <> b -> String.eqb a b = false.
Proof. intros H. by apply String.eqb_neq. Qed.

#[export] Hint Rewrite string_app_cons string_app_nil_r string_app_nil_l string_eqb_refl : snf_rw.
#[export] Hint Resolve string_eqb_neq : snf.

Lemma substring_length (n m : nat) (s : string) :
  String.length (substring n m s) = Nat.min m (String.length s - n).
Proof.
  revert n m. induction s as [|c s IH]; intros [|n] [|m];
    cbn [substring String.length]; rewrite ?IH; lia.
Qed.

Lemma substring_all (n : nat) (s : string) :
  String.length s <= n -> substring 0 n s = s.
Proof.
  revert n. induction s as [|c s IH]; intros [|n] Hn; cbn [substring String.length] in *;
    [done|done|lia|]. rewrite IH; [done|lia].
Qed.

Lemma substring_0_0 (s : string) : substring 0 0 s = ""%string.
Proof. by destruct s. Qed.

(** Two consecutive reads: [substring] of a prefix, then of what follows. *)
Lemma substring_app (n m : nat) (s : string) :
  (substring 0 n s ++ substring n m s)%string = substring 0 (n + m) s.
Proof.
  revert n. induction s as [|c s IH]; intros [|n]; cbn [substring Nat.add];
    [by destruct m..| |]; [by rewrite string_app_nil_l|].
  rewrite string_app_cons, IH. by destruct (n + m).
Qed.

(** Two consecutive reads from any position. *)
Lemma substring_split (n m m' : nat) (s : string) :
  (substring n m s ++ substring (n + m) m' s)%string = substring n (m + m') s.
Proof.
  revert n. induction s as [|c s IH]; intros [|n].
  - destruct m, m'; done.
  - done.
  - apply substring_app.
  - cbn [substring Nat.add]. apply IH.
Qed.

(** Lists *)

(** Overwriting the element at [t] changes a [filter] count by the
    difference of the two elements' contributions. *)
Lemma filter_length_insert {A} (f : A -> bool) (l : list A) (t : nat) (x y : A) :
  l !! t = Some x ->
  List.length (List.filter f (<[t := y]> l)) + (if f x then 1 else 0) =
    List.length (List.filter f l) + (if f y then 1 else 0).
Proof.
  revert t. induction l as [|z l IH]; intros [|t] Ht; try done.
  - injection Ht as ->. simpl. destruct (f x), (f y); simpl; lia.
  - simpl in *. specialize (IH t Ht). destruct (f z); simpl; lia.
Qed.

(** [String.concat ""] of a list of fragments. *)
Definition concat_frags (l : list string) : string := String.concat "" l.

Lemma concat_frags_cons (s : string) (l : list string) :
  concat_frags (s :: l) = (s ++ concat_frags l)%string.
Proof. destruct l; simpl; [by rewrite string_app_nil_r | done]. Qed.

(** A decidable proposition on concrete data, decided by evaluation. *)
Ltac decide_concrete := apply (bool_decide_unpack _); vm_compute; exact I.

(** Case analysis on a string equality test in the goal. *)
Ltac case_streq :=
  match goal with
  | |- context [String.eqb ?a ?b] =>
      destruct (String.eqb_spec a b); subst
  | H : context [String.eqb ?a ?b] |- _ =>
      destruct (String.eqb_spec a b); subst
  end.
