(* ===== verification/StdMap.v ===== *)
(** The feature map [SecNativeFeature::_features], a
    [std::map<std::string, std::string>].

    The class [StdMap] lists the operations of [std::map] that the
    source calls. The class [StdMapSpec] gives their laws as a
    refinement of an stdpp [gmap]. The handlers and the store are
    proved against this interface only. [SortedAssoc] implements it as
    a list of entries sorted by the key order of [std::string]:
    [std::char_traits<char>::lt] compares bytes as [unsigned char],
    which is coqutil's [String.ltb]. *)

From S2P Require Import Prelude.
From coqutil Require Datatypes.String.
From Stdlib Require Import Sorted.

(** ** Interface *)

Class StdMap (M : Type) := {
  sm_empty : M;                              (* std::map(), clear() *)
  sm_find : string -> M -> option string;    (* find(k): Some v, or end() *)
  sm_erase : string -> M -> M;               (* erase(k) *)
  sm_insert : string -> string -> M -> M;    (* insert(hint, {k, v}) *)
  sm_wf : M -> Prop;                         (* the representation invariant *)
  sm_abs : M -> gmap string string           (* the abstract map *)
}.

(** [std::map::insert] leaves the map unchanged when the key is already
    present; [erase] removes the entry of the key if any. *)
Class StdMapSpec (M : Type) `{StdMap M} := {
  sm_wf_empty : sm_wf sm_empty;
  sm_wf_insert k v m : sm_wf m -> sm_wf (sm_insert k v m);
  sm_wf_erase k m : sm_wf m -> sm_wf (sm_erase k m);
  sm_abs_empty : sm_abs sm_empty = ∅;
  sm_find_abs k m : sm_find k m = sm_abs m !! k;
  sm_abs_insert k v m : sm_wf m ->
    sm_abs (sm_insert k v m) =
      match sm_abs m !! k with Some _ => sm_abs m | None => <[k:=v]> (sm_abs m) end;
  sm_abs_erase k m : sm_wf m -> sm_abs (sm_erase k m) = delete k (sm_abs m)
}.

(** ** A sorted association list *)

Module SortedAssoc.

Definition t := list (string * string).

(** [std::less<std::string>]. *)
Definition key_lt (a b : string) : bool := coqutil.Datatypes.String.ltb a b.

Definition entry_lt (p q : string * string) : Prop := key_lt p.1 q.1 = true.

Definition empty : t := [].

Fixpoint find (k : string) (m : t) : option string :=
  match m with
  | [] => None
  | (k', v') :: m' => if String.eqb k k' then Some v' else find k m'
  end.

Fixpoint erase (k : string) (m : t) : t :=
  match m with
  | [] => []
  | (k', v') :: m' => if String.eqb k k' then m' else (k', v') :: erase k m'
  end.

(** [insert] places a new key at its position in key order, and does
    nothing when the key is present. *)
Fixpoint insert (k v : string) (m : t) : t :=
  match m with
  | [] => [(k, v)]
  | (k', v') :: m' =>
      if String.eqb k k' then m
      else if key_lt k k' then (k, v) :: m
      else (k', v') :: insert k v m'
  end.

(** Iterators are positions; [begin()] is the first one. *)
Definition begin (m : t) : nat := 0.

(** [insert(hint, value)]: the hint only speeds up the search of the
    position, the position itself is fixed by the key order. *)
Definition insert_hint (hint : nat) (p : string * string) (m : t) : t :=
  insert p.1 p.2 m.

Definition clear (m : t) : t := [].

Definition wf (m : t) : Prop := StronglySorted entry_lt m.

Definition abs (m : t) : gmap string string := list_to_map m.

Fixpoint sortedb (m : t) : bool :=
  match m with
  | (k1, _) :: (((k2, _) :: _) as m') => key_lt k1 k2 && sortedb m'
  | _ => true
  end.

(** *** Order lemmas *)

Lemma key_lt_irrefl k : key_lt k k = false.
Proof. apply coqutil.Datatypes.String.ltb_antirefl. Qed.

Lemma key_lt_trans a b c : key_lt a b = true -> key_lt b c = true -> key_lt a c = true.
Proof. apply coqutil.Datatypes.String.ltb_trans. Qed.

Lemma key_lt_total a b : a <> b -> key_lt a b = false -> key_lt b a = true.
Proof.
  intros Hne Hab. destruct (key_lt b a) eqn:Hba; [done|].
  by pose proof (coqutil.Datatypes.String.ltb_total a b Hab Hba).
Qed.

Lemma key_lt_neq a b : key_lt a b = true -> a <> b.
Proof. intros H ->. by rewrite key_lt_irrefl in H. Qed.

(** A key below every key of the map is absent. *)
Lemma find_below k m : Forall (fun q => key_lt k q.1 = true) m -> find k m = None.
Proof.
  induction 1 as [|[k' v'] m Hk _ IH]; [done|]; simpl in *.
  by rewrite string_eqb_neq by (by apply key_lt_neq).
Qed.

Lemma find_abs k m : find k m = abs m !! k.
Proof.
  induction m as [|[k' v'] m IH]; [done|].
  unfold abs in *. rewrite list_to_map_cons, lookup_insert. simpl.
  case_streq; case_decide; congruence.
Qed.

Lemma In_insert p k v m : In p (insert k v m) -> p = (k, v) \/ In p m.
Proof.
  induction m as [|[k' v'] m IH]; simpl; [naive_solver|].
  case_streq; [naive_solver|].
  destruct (key_lt k k'); simpl; naive_solver.
Qed.

Lemma In_erase p k m : In p (erase k m) -> In p m.
Proof.
  induction m as [|[k' v'] m IH]; simpl; [done|].
  case_streq; simpl; naive_solver.
Qed.

Lemma Forall_insert (P : string * string -> Prop) k v m :
  P (k, v) -> Forall P m -> Forall P (insert k v m).
Proof.
  intros Hp Hm. apply List.Forall_forall. intros q [->|Hq]%In_insert; [done|].
  by eapply List.Forall_forall in Hm.
Qed.

Lemma Forall_erase (P : string * string -> Prop) k m :
  Forall P m -> Forall P (erase k m).
Proof. intros Hm. apply List.Forall_forall. intros q Hq%In_erase. by eapply List.Forall_forall in Hm. Qed.

Lemma wf_insert k v m : wf m -> wf (insert k v m).
Proof.
  induction 1 as [|[k' v'] m Hm IH Hall]; simpl; [repeat constructor|].
  case_streq; [by constructor|].
  destruct (key_lt k k') eqn:Hlt.
  - constructor; [by constructor|].
    constructor; [done|]. eapply Forall_impl; [done|].
    intros q Hq. by eapply key_lt_trans.
  - constructor; [done|]. apply Forall_insert; [|done].
    by apply key_lt_total.
Qed.

Lemma wf_erase k m : wf m -> wf (erase k m).
Proof.
  induction 1 as [|[k' v'] m Hm IH Hall]; simpl; [constructor|].
  case_streq; [done|]. constructor; [done|]. by apply Forall_erase.
Qed.

Lemma abs_insert k v m : wf m ->
  abs (insert k v m) =
    match abs m !! k with Some _ => abs m | None => <[k:=v]> (abs m) end.
Proof.
  rewrite <- !find_abs.
  induction 1 as [|[k' v'] m Hm IH Hall]; simpl; [done|].
  case_streq; [done|].
  destruct (key_lt k k') eqn:Hlt.
  - rewrite find_below; [done|].
    eapply Forall_impl; [done|].
    intros q Hq. by eapply key_lt_trans.
  - unfold abs in *. rewrite !list_to_map_cons, IH.
    destruct (find k m); [done|]. by apply insert_insert_ne.
Qed.

Lemma abs_erase k m : wf m -> abs (erase k m) = delete k (abs m).
Proof.
  induction 1 as [|[k' v'] m Hm IH Hall]; simpl; [by rewrite delete_empty|].
  unfold abs in *. simpl. case_streq.
  - rewrite delete_insert_eq, delete_id; [done|].
    fold (abs m). by rewrite <- find_abs, find_below.
  - rewrite delete_insert_ne; [|done].
    by rewrite list_to_map_cons, IH.
Qed.

Lemma sortedb_wf m : sortedb m = true -> wf m.
Proof.
  induction m as [|[k1 v1] m IH]; [constructor|].
  destruct m as [|[k2 v2] m]; [repeat constructor|].
  simpl. intros [H12 Hs]%andb_prop. constructor; [by apply IH|].
  pose proof (IH Hs) as Hw. inversion Hw as [|? ? _ Hall]; subst.
  constructor; [done|]. eapply Forall_impl; [done|].
  intros q Hq. by eapply key_lt_trans.
Qed.


(** Two sorted lists with the same abstract map are equal: the
    representation is canonical. *)
Lemma wf_abs_inj m1 m2 : wf m1 -> wf m2 -> abs m1 = abs m2 -> m1 = m2.
Proof.
  intros Hw1. revert m2. induction Hw1 as [|[k1 v1] m1 Hm1 IH Hall1];
    intros m2 Hw2 Habs; destruct Hw2 as [|[k2 v2] m2 Hm2 Hall2].
  - done.
  - pose proof (f_equal (lookup k2) Habs) as Hk. unfold abs in Hk.
    by rewrite list_to_map_cons, lookup_insert_eq in Hk.
  - pose proof (f_equal (lookup k1) Habs) as Hk. unfold abs in Hk.
    by rewrite list_to_map_cons, lookup_insert_eq in Hk.
  - assert (Hfind : forall k, find k ((k1, v1) :: m1) = find k ((k2, v2) :: m2)).
    { intros k. by rewrite !find_abs, Habs. }
    assert (Hk : k1 = k2).
    { destruct (decide (k1 = k2)) as [|Hne]; [done|exfalso].
      destruct (key_lt k1 k2) eqn:Hlt.
      - pose proof (Hfind k1) as F. simpl in F. rewrite string_eqb_refl, string_eqb_neq in F by done.
        rewrite find_below in F; [done|].
        eapply Forall_impl; [done|]. intros q Hq. by eapply key_lt_trans.
      - pose proof (Hfind k2) as F. simpl in F.
        rewrite string_eqb_refl, string_eqb_neq in F by congruence.
        rewrite find_below in F; [done|].
        eapply Forall_impl; [done|]. intros q Hq. eapply key_lt_trans; [|done].
        by apply key_lt_total. }
    subst k2. pose proof (Hfind k1) as F. simpl in F. rewrite string_eqb_refl in F.
    injection F as ->. f_equal. apply IH; [done|].
    apply map_eq. intros k. rewrite <- !find_abs.
    destruct (decide (k = k1)) as [->|Hne].
    + rewrite !find_below; [done| |]; eapply Forall_impl; try done; intros q Hq; exact Hq.
    + pose proof (Hfind k) as Fk. simpl in Fk. by rewrite string_eqb_neq in Fk.
Qed.

End SortedAssoc.

#[export] Instance sorted_assoc_map : StdMap SortedAssoc.t := {|
  sm_empty := SortedAssoc.empty;
  sm_find := SortedAssoc.find;
  sm_erase := SortedAssoc.erase;
  sm_insert := fun k v m => SortedAssoc.insert_hint (SortedAssoc.begin m) (k, v) m;
  sm_wf := SortedAssoc.wf;
  sm_abs := SortedAssoc.abs
|}.

#[export] Instance sorted_assoc_spec : StdMapSpec SortedAssoc.t.
Proof.
  split; cbn.
  - constructor.
  - intros. by apply SortedAssoc.wf_insert.
  - intros. by apply SortedAssoc.wf_erase.
  - done.
  - apply SortedAssoc.find_abs.
  - intros. by apply SortedAssoc.abs_insert.
  - intros. by apply SortedAssoc.abs_erase.
Qed.

(** ** Properties of the map *)

Module SortedAssocProps.
Import SortedAssoc.

Inductive map_op := OpInsert (k v : string) | OpErase (k : string).

(** The operations the callbacks perform, on the representation. *)
Definition run_op (m : t) (o : map_op) : t :=
  match o with
  | OpInsert k v => insert_hint (begin m) (k, v) m
  | OpErase k => erase k m
  end.

(** The same operations on the abstract map. *)
Definition run_op_abs (g : gmap string string) (o : map_op) : gmap string string :=
  match o with
  | OpInsert k v => match g !! k with Some _ => g | None => <[k:=v]> g end
  | OpErase k => delete k g
  end.

(** The sorted list implements the map: every sequence of hinted
    inserts and erases keeps it sorted, and its abstract map is the
    result of the same sequence on a gmap. *)
Theorem sorted_assoc_refines ops m :
  wf m -> wf (fold_left run_op ops m) /\
          abs (fold_left run_op ops m) = fold_left run_op_abs ops (abs m).
Proof.
  revert m. induction ops as [|[k v|k] ops IH]; intros m Hw; [done| |]; simpl.
  - rewrite <- (abs_insert k v m Hw). apply IH. by apply wf_insert.
  - rewrite <- (abs_erase k m Hw). apply IH. by apply wf_erase.
Qed.

(** The position of an entry is fixed by the key order, never
    by the order of insertion or by the hint: inserting two different
    keys in either order gives the same list. An entry inserted with the
    [begin()] hint is not placed first unless its key is the smallest. *)
Theorem insert_order_independent m k1 v1 k2 v2 h1 h2 h1' h2' :
  wf m -> k1 <> k2 ->
  insert_hint h1 (k1, v1) (insert_hint h2 (k2, v2) m) =
  insert_hint h2' (k2, v2) (insert_hint h1' (k1, v1) m).
Proof.
  intros Hw Hne. unfold insert_hint; simpl.
  apply wf_abs_inj; [by repeat apply wf_insert..|].
  rewrite !abs_insert by (by repeat apply wf_insert).
  destruct (abs m !! k1) eqn:E1, (abs m !! k2) eqn:E2;
    rewrite ?lookup_insert_ne, ?E1, ?E2 by done; try done.
  by apply insert_insert_ne.
Qed.

End SortedAssocProps.
