(* ===== verification/Atoi.v ===== *)
(** [atoi], as [getInteger] calls it on the stored value.

    bionic defines [atoi(s)] as [strtol(s, NULL, 10)] converted to
    [int]. [strtol] skips the white space of [isspace], takes one
    optional sign, then consumes decimal digits for as long as there
    are any. When the value leaves the range of [long] it saturates at
    [LONG_MAX] or [LONG_MIN], and it still consumes the remaining
    digits. Accumulating the exact value in [Z] and clamping it at the
    end gives the same result. The sharkls devices are 32-bit ARM, so
    [long] and [int] are both 32 bits wide. The conversion to [int] is
    written out as the wrap-around the compiler performs, which is the
    identity at this width.

    [dec_string] is the decimal printer used to state the roundtrip. It
    is not code of the repository. *)

From S2P Require Import Prelude.

Local Open Scope Z_scope.

Definition LONG_BITS : Z := 32.
Definition INT_BITS : Z := 32.
Definition LONG_MIN : Z := - 2 ^ (LONG_BITS - 1).
Definition LONG_MAX : Z := 2 ^ (LONG_BITS - 1) - 1.
Definition INT_MIN : Z := - 2 ^ (INT_BITS - 1).
Definition INT_MAX : Z := 2 ^ (INT_BITS - 1) - 1.

(** [isspace] in the C locale: space, \t, \n, \v, \f, \r. *)
Definition isspace (c : ascii) : bool :=
  let n := nat_of_ascii c in (n =? 32)%nat || ((9 <=? n)%nat && (n <=? 13)%nat).

Definition isdigit (c : ascii) : bool :=
  let n := nat_of_ascii c in (48 <=? n)%nat && (n <=? 57)%nat.

Definition digit_val (c : ascii) : Z := Z.of_nat (nat_of_ascii c) - 48.

Fixpoint skip_space (s : string) : string :=
  match s with
  | String c r => if isspace c then skip_space r else s
  | EmptyString => s
  end.

(** The optional sign: [true] for a minus. *)
Definition sign_split (s : string) : bool * string :=
  match s with
  | String "-"%char r => (true, r)
  | String "+"%char r => (false, r)
  | _ => (false, s)
  end.

Fixpoint digits_value (acc : Z) (s : string) : Z :=
  match s with
  | String c r => if isdigit c then digits_value (acc * 10 + digit_val c) r else acc
  | EmptyString => acc
  end.

Definition strtol (s : string) : Z :=
  let '(neg, r) := sign_split (skip_space s) in
  let v := digits_value 0 r in
  if neg then Z.max LONG_MIN (- v) else Z.min LONG_MAX v.

(** The conversion of a [long] to [int]: two's complement wrap-around. *)
Definition int_of_long (x : Z) : Z :=
  (x + 2 ^ (INT_BITS - 1)) mod 2 ^ INT_BITS - 2 ^ (INT_BITS - 1).

Definition atoi (s : string) : Z := int_of_long (strtol s).

(** ** The decimal printer *)

Definition digit_char (d : Z) : ascii := ascii_of_nat (Z.to_nat (d + 48)).

Fixpoint dec_digits (fuel : nat) (n : Z) (acc : string) : string :=
  match fuel with
  | O => acc
  | S f =>
      let acc' := String (digit_char (n mod 10)) acc in
      if n <? 10 then acc' else dec_digits f (n / 10) acc'
  end.

Definition dec_fuel (n : Z) : nat := S (Z.to_nat (Z.log2 n)).

Definition dec_string (n : Z) : string :=
  if n <? 0 then String "-"%char (dec_digits (dec_fuel (- n)) (- n) EmptyString)
  else dec_digits (dec_fuel n) n EmptyString.

Definition starts_with_digit (s : string) : bool :=
  match s with String c _ => isdigit c | EmptyString => false end.

(** ** Lemmas *)

Lemma digit_char_spec d : 0 <= d < 10 ->
  isdigit (digit_char d) = true /\ digit_val (digit_char d) = d /\ isspace (digit_char d) = false.
Proof.
  intros Hd. unfold isdigit, digit_val, isspace, digit_char.
  rewrite nat_ascii_embedding by lia.
  repeat split; [apply andb_true_intro; split; apply Nat.leb_le; lia|lia|].
  apply orb_false_intro; [apply Nat.eqb_neq; lia|].
  apply andb_false_intro2, Nat.leb_gt. lia.
Qed.

Lemma digits_value_stop acc t : starts_with_digit t = false -> digits_value acc t = acc.
Proof. destruct t as [|c t]; simpl; [done|]. by intros ->. Qed.

(** The printed digits of [n], followed by [acc], read back as [n]
    followed by [acc]. *)
Lemma dec_digits_value f n acc :
  0 <= n < 10 ^ Z.of_nat f ->
  digits_value 0 (dec_digits f n acc) = digits_value n acc.
Proof.
  revert n acc. induction f as [|f IH]; intros n acc Hn; simpl.
  { replace n with 0 by lia. done. }
  pose proof (Z.mod_pos_bound n 10 ltac:(lia)) as Hm.
  destruct (digit_char_spec (n mod 10) Hm) as (Hd & Hv & _).
  destruct (Z.ltb_spec n 10) as [Hlt|Hge].
  - simpl. rewrite Hd, Hv, Z.mod_small by lia. f_equal; lia.
  - rewrite IH; cycle 1.
    { split; [apply Z.div_pos; lia|].
      apply Z.div_lt_upper_bound; [lia|]. rewrite Nat2Z.inj_succ, Z.pow_succ_r in Hn; lia. }
    simpl. rewrite Hd, Hv. f_equal. pose proof (Z.div_mod n 10). lia.
Qed.

Lemma dec_digits_head f n acc : (f > 0)%nat -> 0 <= n ->
  exists c r, dec_digits f n acc = String c r /\ isdigit c = true /\ isspace c = false
              /\ c <> "-"%char /\ c <> "+"%char.
Proof.
  revert n acc. induction f as [|f IH]; intros n acc Hf Hn; [lia|]. simpl.
  pose proof (Z.mod_pos_bound n 10 ltac:(lia)) as Hm.
  destruct (digit_char_spec (n mod 10) Hm) as (Hd & _ & Hs).
  destruct (Z.ltb_spec n 10).
  - exists (digit_char (n mod 10)), acc. repeat split; try done;
      intros Heq; rewrite Heq in Hd; discriminate.
  - destruct f as [|f].
    + exists (digit_char (n mod 10)), acc. simpl. repeat split; try done;
        intros Heq; rewrite Heq in Hd; discriminate.
    + apply IH; [lia|]. apply Z.div_pos; lia.
Qed.

Lemma dec_fuel_enough n : 0 <= n -> n < 10 ^ Z.of_nat (dec_fuel n).
Proof.
  intros Hn. unfold dec_fuel. rewrite Nat2Z.inj_succ, Z2Nat.id.
  2: by apply Z.log2_nonneg.
  destruct (Z.eq_dec n 0) as [->|Hn0]; [done|].
  pose proof (Z.log2_spec n ltac:(lia)) as [_ Hup].
  eapply Z.lt_le_trans; [exact Hup|].
  apply Z.pow_le_mono_l. split; [lia|lia].
Qed.

Lemma skip_space_digits f n acc : (f > 0)%nat -> 0 <= n ->
  sign_split (skip_space (dec_digits f n acc)) = (false, dec_digits f n acc).
Proof.
  intros Hf Hn. destruct (dec_digits_head f n acc Hf Hn) as (c & r & Heq & _ & Hs & Hm & Hp).
  rewrite Heq. simpl. rewrite Hs. unfold sign_split.
  destruct c as [[] [] [] [] [] [] [] []]; try done; exfalso; by apply Hm || by apply Hp.
Qed.

Lemma int_of_long_id x : INT_MIN <= x <= INT_MAX -> int_of_long x = x.
Proof.
  unfold INT_MIN, INT_MAX, int_of_long, INT_BITS. intros Hx. simpl in *.
  rewrite Z.mod_small by lia. lia.
Qed.

Lemma digits_value_nonneg acc s : 0 <= acc -> 0 <= digits_value acc s.
Proof.
  revert acc. induction s as [|c s IH]; intros acc Hacc; simpl; [done|].
  destruct (isdigit c) eqn:Hc; [|done]. apply IH.
  unfold isdigit, digit_val in *. apply andb_prop in Hc as [Hc _].
  apply Nat.leb_le in Hc. lia.
Qed.

Lemma strtol_range s : LONG_MIN <= strtol s <= LONG_MAX.
Proof.
  unfold strtol. destruct (sign_split _) as [[] r];
    pose proof (digits_value_nonneg 0 r ltac:(lia));
    unfold LONG_MIN, LONG_MAX, LONG_BITS; simpl; lia.
Qed.

Lemma dec_digits_app f n acc t :
  (dec_digits f n acc ++ t)%string = dec_digits f n (acc ++ t)%string.
Proof.
  revert n acc. induction f as [|f IH]; intros n acc; simpl; [done|].
  destruct (n <? 10); [done|]. by rewrite IH.
Qed.

(** The digits of [0 <= m], followed by a text that does not start
    with a digit, read back as [m]. *)
Lemma digits_of_nonneg m t : 0 <= m -> starts_with_digit t = false ->
  digits_value 0 (dec_digits (dec_fuel m) m t) = m.
Proof.
  intros Hm Ht. rewrite dec_digits_value by (split; [done|by apply dec_fuel_enough]).
  by apply digits_value_stop.
Qed.

Lemma strtol_minus r : strtol (String "-"%char r) = Z.max LONG_MIN (- digits_value 0 r).
Proof. reflexivity. Qed.

(** [atoi] of a printed [int] followed by a non-digit. *)
Lemma atoi_dec_app n t :
  INT_MIN <= n <= INT_MAX -> starts_with_digit t = false ->
  atoi (dec_string n ++ t) = n.
Proof.
  intros Hn Ht. unfold atoi, dec_string.
  unfold INT_MIN, INT_MAX, INT_BITS in Hn; simpl in Hn.
  destruct (Z.ltb_spec n 0) as [Hneg|Hpos].
  - rewrite string_app_cons, dec_digits_app, string_app_nil_l, strtol_minus.
    rewrite digits_of_nonneg by (lia || done).
    rewrite int_of_long_id; unfold LONG_MIN, LONG_BITS, INT_MIN, INT_MAX, INT_BITS; simpl; lia.
  - rewrite dec_digits_app, string_app_nil_l.
    unfold strtol. rewrite skip_space_digits by (unfold dec_fuel; lia).
    rewrite digits_of_nonneg by done.
    rewrite int_of_long_id; unfold LONG_MAX, LONG_BITS, INT_MIN, INT_MAX, INT_BITS; simpl; lia.
Qed.


Lemma dec_string_nonempty n : dec_string n <> ""%string.
Proof.
  unfold dec_string. destruct (Z.ltb_spec n 0) as [|Hn]; [done|].
  by destruct (dec_digits_head (dec_fuel n) n "" ltac:(unfold dec_fuel; lia) Hn) as (c & r & -> & _).
Qed.

(** Leading white space is skipped. *)
Lemma skip_space_app ws s :
  Forall (fun c => isspace c = true) ws ->
  skip_space (string_of_list_ascii ws ++ s) = skip_space s.
Proof.
  induction 1 as [|c ws Hc _ IH]; [done|].
  cbn [string_of_list_ascii]. rewrite string_app_cons. cbn [skip_space]. by rewrite Hc.
Qed.

Lemma atoi_skip_space ws s :
  Forall (fun c => isspace c = true) ws -> atoi (string_of_list_ascii ws ++ s) = atoi s.
Proof. intros Hws. unfold atoi, strtol. by rewrite skip_space_app. Qed.

Lemma strtol_plus r : strtol (String "+"%char r) = Z.min LONG_MAX (digits_value 0 r).
Proof. reflexivity. Qed.

(** An explicit plus sign before a non-negative printed [int]. *)
Lemma atoi_plus_dec_app n t :
  0 <= n <= INT_MAX -> starts_with_digit t = false ->
  atoi (String "+"%char (dec_string n ++ t)) = n.
Proof.
  intros Hn Ht. unfold atoi, dec_string.
  unfold INT_MAX, INT_BITS in Hn; simpl in Hn.
  rewrite (proj2 (Z.ltb_ge n 0)) by lia. rewrite dec_digits_app, string_app_nil_l, strtol_plus.
  rewrite digits_of_nonneg by (lia || done).
  rewrite int_of_long_id; unfold LONG_MAX, LONG_BITS, INT_MIN, INT_MAX, INT_BITS; simpl; lia.
Qed.

(** ** Properties of the [atoi] model *)

(** [atoi] always returns a value in the range of [int], and
    the conversion of [strtol]'s [long] to [int] loses nothing. *)
Theorem atoi_bounds s : INT_MIN <= atoi s <= INT_MAX /\ atoi s = strtol s.
Proof.
  pose proof (strtol_range s) as Hr. unfold atoi.
  rewrite int_of_long_id; [split; [|done]|]; unfold INT_MIN, INT_MAX, LONG_MIN, LONG_MAX in *; done.
Qed.

(** [atoi] reads back every [int] printed in decimal, after
    any [isspace] white space, and with an explicit plus sign on a
    non-negative number; it stops at the first character that is not
    a digit, so the text after the number is ignored. *)
Theorem atoi_dec_prefix ws n t :
  Forall (fun c => isspace c = true) ws ->
  INT_MIN <= n <= INT_MAX -> starts_with_digit t = false ->
  atoi (string_of_list_ascii ws ++ dec_string n ++ t) = n /\
  (0 <= n -> atoi (string_of_list_ascii ws ++ String "+"%char (dec_string n ++ t)) = n).
Proof.
  intros Hws Hn Ht. rewrite !atoi_skip_space by done.
  split; [by apply atoi_dec_app|]. intros Hpos. apply atoi_plus_dec_app; [lia|done].
Qed.

(** A value that, after white space and an optional sign, does
    not start with a digit converts to 0 (so "true" or "abc" give 0). *)
Theorem atoi_non_numeric s :
  starts_with_digit (sign_split (skip_space s)).2 = false -> atoi s = 0.
Proof.
  unfold atoi, strtol. destruct (sign_split (skip_space s)) as [neg r]. simpl.
  intros Hr. rewrite digits_value_stop by done.
  by destruct neg.
Qed.

(** A value whose digits exceed [LONG_MAX] saturates: at
    [INT_MAX] (the 32-bit [LONG_MAX]) when positive and at [INT_MIN]
    when negative; it does not wrap around. *)
Theorem atoi_saturates s neg r :
  sign_split (skip_space s) = (neg, r) -> LONG_MAX < digits_value 0 r ->
  atoi s = if neg then INT_MIN else INT_MAX.
Proof.
  intros Hs Hv. unfold atoi, strtol. rewrite Hs.
  unfold LONG_MAX, LONG_MIN, LONG_BITS in *; simpl in Hv.
  destruct neg; [rewrite Z.max_l by lia|rewrite Z.min_l by lia];
    by rewrite int_of_long_id by (unfold INT_MIN, INT_MAX, INT_BITS; simpl; lia).
Qed.

