(* ===== verification/Expat.v ===== *)
(** The expat library as the loader sees it.

    [_loadFeature] installs three callbacks and feeds the file to
    [XML_Parse] one buffer at a time. Every callback fired during one
    [XML_Parse] call is an [xml_event], in firing order. The call
    returns them together with its [XML_Status]. The callbacks only
    touch the user data, so running them after the call, in order, is
    the same as running them during it.

    Expat is a library and is not modelled: [ExpatParser] is the
    interface the loader is proved against. [ExpatStreaming] adds the
    law that expat's incremental interface is designed for: what the
    parser reports does not depend on how the document is split into
    buffers ([run_stream] feeds the buffers in order). Real expat
    reports the text of an element in fragments that depend on where
    the buffers end, so it satisfies only the weaker [ExpatCoalescing]:
    the events are split-independent up to merging adjacent character
    data ([coalesce]). [Lite] is a small
    executable parser for a subset of XML. It has elements, character
    data and the five predefined entities, and it skips processing
    instructions and comments. Like expat it reports a newline and an
    entity as fragments of their own, rejects a second top-level
    element, and reports nothing outside the root element. It buffers
    its input until the final call, so it satisfies [ExpatStreaming]
    ([lite_streaming]). *)

From S2P Require Import Prelude.

Inductive xml_event :=
  | StartElement (name : string)   (* XML_StartElementHandler *)
  | EndElement (name : string)     (* XML_EndElementHandler *)
  | CharData (s : string).         (* XML_CharacterDataHandler *)

Inductive XML_Status := XML_STATUS_ERROR | XML_STATUS_OK.

Class ExpatParser := {
  XML_Parser : Type;
  XML_ParserCreate : XML_Parser;
  (** [XML_Parse(parser, buf, len, isFinal)] *)
  XML_Parse : XML_Parser -> string -> bool -> XML_Parser * list xml_event * XML_Status
}.

(** Feeding a parser: the buffers [bufs] one after another as not
    final, then [last] as the final buffer, stopping at the first
    buffer the parser rejects. The callbacks of every call are returned
    in firing order, with the status of the last call. *)
Fixpoint run_stream `{ExpatParser} (p : XML_Parser) (bufs : list string) (last : string)
    : list xml_event * XML_Status :=
  match bufs with
  | [] => let '(_, evs, st) := XML_Parse p last true in (evs, st)
  | b :: bufs' =>
      let '(p', evs, st) := XML_Parse p b false in
      match st with
      | XML_STATUS_ERROR => (evs, XML_STATUS_ERROR)
      | XML_STATUS_OK => let '(evs', st') := run_stream p' bufs' last in (evs ++ evs', st')
      end
  end.

(** Feeding the buffers [bufs] as not final, stopping at the first
    buffer the parser rejects: the callbacks fired, in order. *)
Fixpoint run_partial `{ExpatParser} (p : XML_Parser) (bufs : list string) : list xml_event :=
  match bufs with
  | [] => []
  | b :: bufs' =>
      let '(p', evs, st) := XML_Parse p b false in
      match st with
      | XML_STATUS_ERROR => evs
      | XML_STATUS_OK => evs ++ run_partial p' bufs'
      end
  end.

(** A streaming parser: what it reports for a document, callbacks and
    verdict, does not depend on how the document is split into
    buffers. Expat is written to behave this way. The loader's
    end-to-end theorem is proved for every parser with this law. *)
Class ExpatStreaming `{ExpatParser} := {
  xml_document : string -> list xml_event * XML_Status;
  run_stream_split bufs last :
    run_stream XML_ParserCreate bufs last = xml_document (concat_frags bufs ++ last)
}.

(** The events with every run of adjacent character data merged into
    one fragment. Expat reports the text of an element in as many
    fragments as it likes (at buffer ends, at newlines, around
    entities); what it reports is fixed only up to this merging. *)
Fixpoint coalesce (evs : list xml_event) : list xml_event :=
  match evs with
  | [] => []
  | CharData a :: rest =>
      match coalesce rest with
      | CharData b :: r => CharData (a ++ b) :: r
      | r => CharData a :: r
      end
  | e :: rest => e :: coalesce rest
  end.

(** The law expat does satisfy: the events of a document, up to the
    merging of adjacent character data, and the verdict do not depend
    on how the document is split into buffers. *)
Class ExpatCoalescing `{ExpatParser} := {
  xml_document_merged : string -> list xml_event * XML_Status;
  run_stream_coalesce bufs last :
    let '(evs, st) := run_stream XML_ParserCreate bufs last in
    (coalesce evs, st) = xml_document_merged (concat_frags bufs ++ last)
}.

(** A parser whose events do not depend on the split at all satisfies
    the weaker law. *)
#[export] Instance streaming_coalescing `{ExpatStreaming} : ExpatCoalescing.
Proof.
  refine {| xml_document_merged doc := let '(evs, st) := xml_document doc in (coalesce evs, st) |}.
  intros bufs last. rewrite run_stream_split. by destruct (xml_document _).
Defined.

Module Lite.

Local Open Scope char_scope.

Definition is_ws (c : ascii) : bool :=
  match c with " " | "009" | "010" | "013" => true | _ => false end.

Definition is_name_end (c : ascii) : bool :=
  is_ws c || (c =? ">")%char || (c =? "/")%char.

Fixpoint take_name (s : list ascii) : list ascii * list ascii :=
  match s with
  | [] => ([], [])
  | c :: r => if is_name_end c then ([], s) else let '(n, r') := take_name r in (c :: n, r')
  end.

(** The rest of a start tag after its name: [Some (empty, rest)] where
    [empty] says the tag ended with "/>". *)
Fixpoint skip_tag (s : list ascii) (slash : bool) : option (bool * list ascii) :=
  match s with
  | [] => None
  | ">" :: r => Some (slash, r)
  | c :: r => skip_tag r (c =? "/")%char
  end.

(** [is_prefix pat s]: [s] starts with [pat]. *)
Fixpoint is_prefix (pat s : list ascii) : bool :=
  match pat, s with
  | [], _ => true
  | p :: pat', c :: s' => (c =? p)%char && is_prefix pat' s'
  | _ :: _, [] => false
  end.

(** The input after the first occurrence of [pat]. *)
Fixpoint skip_past (pat s : list ascii) : option (list ascii) :=
  match s with
  | [] => None
  | _ :: r => if is_prefix pat s then Some (drop (List.length pat) s) else skip_past pat r
  end.

Definition entity (s : list ascii) : option (ascii * list ascii) :=
  match s with
  | "a" :: "m" :: "p" :: ";" :: r => Some ("&", r)
  | "l" :: "t" :: ";" :: r => Some ("<", r)
  | "g" :: "t" :: ";" :: r => Some (">", r)
  | "q" :: "u" :: "o" :: "t" :: ";" :: r => Some ("034", r)
  | "a" :: "p" :: "o" :: "s" :: ";" :: r => Some ("'", r)
  | _ => None
  end.

Definition str (l : list ascii) : string := string_of_list_ascii l.

(** The pending text run, reported when it is not empty. *)
Definition flush (acc : list ascii) : list xml_event :=
  match acc with [] => [] | _ => [CharData (str (rev acc))] end.

Definition prepend (evs : list xml_event) (r : list xml_event * bool) : list xml_event * bool :=
  (evs ++ r.1, r.2).

(** [lex fuel s stk closed acc]: [stk] holds the open elements,
    [closed] says the root element has been closed, [acc] is the
    pending text run, reversed. The boolean is the well-formedness
    verdict; the events are those before the first error. *)
Fixpoint lex (fuel : nat) (s : list ascii) (stk : list string) (closed : bool)
    (acc : list ascii) : list xml_event * bool :=
  match fuel with
  | O => ([], false)
  | S f =>
    match s with
    | [] => (flush acc, closed && bool_decide (stk = []))
    | c :: r =>
      if (c =? "<")%char then
        if is_prefix ["?"] r then
          match skip_past ["?"; ">"] (drop 1 r) with
          | Some r' => prepend (flush acc) (lex f r' stk closed [])
          | None => (flush acc, false)
          end
        else if is_prefix ["!"; "-"; "-"] r then
          match skip_past ["-"; "-"; ">"] (drop 3 r) with
          | Some r' => prepend (flush acc) (lex f r' stk closed [])
          | None => (flush acc, false)
          end
        else if is_prefix ["/"] r then
          let '(n, r') := take_name (drop 1 r) in
          match r', stk with
          | ">" :: r'', top :: stk' =>
              if String.eqb top (str n) then
                prepend (flush acc ++ [EndElement top]) (lex f r'' stk' (bool_decide (stk' = [])) [])
              else (flush acc, false)
          | _, _ => (flush acc, false)
          end
        else
          let '(n, r') := take_name r in
          if closed || bool_decide (n = []) then (flush acc, false) else
          match skip_tag r' false with
          | Some (true, r'') =>
              prepend (flush acc ++ [StartElement (str n); EndElement (str n)])
                (lex f r'' stk (bool_decide (stk = [])) [])
          | Some (false, r'') =>
              prepend (flush acc ++ [StartElement (str n)]) (lex f r'' (str n :: stk) false [])
          | None => (flush acc, false)
          end
      else
        match stk with
        | [] => if is_ws c then lex f r stk closed [] else ([], false)
        | _ :: _ =>
            if (c =? "&")%char then
              match entity r with
              | Some (e, r') => prepend (flush acc ++ [CharData (str [e])]) (lex f r' stk closed [])
              | None => (flush acc, false)
              end
            else if (c =? "010")%char then
              prepend (flush acc ++ [CharData (str [c])]) (lex f r stk closed [])
            else lex f r stk closed (c :: acc)
        end
    end
  end.

Definition parse_document (doc : string) : list xml_event * bool :=
  let s := list_ascii_of_string doc in
  lex (S (List.length s)) s [] false [].

Record lite_state := { lite_buf : string; lite_finished : bool }.

Definition parse (st : lite_state) (buf : string) (isFinal : bool)
    : lite_state * list xml_event * XML_Status :=
  if lite_finished st then (st, [], XML_STATUS_ERROR)
  else if isFinal then
    let '(evs, ok) := parse_document (lite_buf st ++ buf) in
    ({| lite_buf := ""; lite_finished := true |}, evs,
     if ok then XML_STATUS_OK else XML_STATUS_ERROR)
  else ({| lite_buf := lite_buf st ++ buf; lite_finished := false |}, [], XML_STATUS_OK).

End Lite.

#[export] Instance lite_expat : ExpatParser := {|
  XML_Parser := Lite.lite_state;
  XML_ParserCreate := {| Lite.lite_buf := ""; Lite.lite_finished := false |};
  XML_Parse := Lite.parse
|}.

(** [Lite] is a streaming parser: it keeps every buffer and parses the
    whole input at the final one. *)
Lemma lite_run_stream (st : Lite.lite_state) bufs last :
  Lite.lite_finished st = false ->
  run_stream st bufs last =
    let '(evs, ok) := Lite.parse_document (Lite.lite_buf st ++ concat_frags bufs ++ last) in
    (evs, if ok then XML_STATUS_OK else XML_STATUS_ERROR).
Proof.
  revert st. induction bufs as [|b bufs IH]; intros st Hst; cbn [run_stream XML_Parse lite_expat].
  - unfold Lite.parse. rewrite Hst. by destruct (Lite.parse_document _) as [evs []].
  - unfold Lite.parse at 1. rewrite Hst. cbn -[Lite.parse_document concat_frags]. rewrite IH by done.
    cbn [Lite.lite_buf]. rewrite concat_frags_cons, <-!string_app_assoc.
    by destruct (Lite.parse_document _) as [evs []].
Qed.

#[export] Instance lite_streaming : ExpatStreaming.
Proof.
  refine {| xml_document doc :=
    let '(evs, ok) := Lite.parse_document doc in (evs, if ok then XML_STATUS_OK else XML_STATUS_ERROR) |}.
  intros bufs last. by rewrite lite_run_stream.
Defined.
