(* ===== verification/LiteDoc.v ===== *)
(** Feature documents and what [Expat.Lite] makes of them.

    A feature file is a root element holding one element per tag, with
    the tag's value as text ([feature_doc]). [Lite.lex] is a fuelled
    lexer over the document's characters. The lemmas below compute it on
    each piece of such a document: a start tag, a text run, an end tag,
    then one element and a list of elements. The names must be plain
    XML names. A value can be any text: the printer writes [<] and [&]
    as the entities [&lt;] and [&amp;] ([escape]). The parser reports
    the text as fragments ([text_frags]): each entity and each newline
    is a fragment of its own, as in expat, and the fragments
    concatenate back to the value. The result is [feature_doc_parses]:
    the parser accepts the document and reports exactly
    [feature_events]. *)

From S2P Require Import Prelude Expat.

Local Open Scope char_scope.

(** A character of a name: it does not end the name, and it cannot make
    [<] open a processing instruction or a comment. *)
Definition name_char (c : ascii) : bool :=
  negb (Lite.is_name_end c) && negb (c =? "?") && negb (c =? "!").

Definition valid_name (k : string) : bool :=
  negb (String.eqb k "") && forallb name_char (list_ascii_of_string k).

(** The characters the printer escapes. *)
Definition escape_char (c : ascii) : list ascii :=
  if c =? "<" then ["&"; "l"; "t"; ";"]
  else if c =? "&" then ["&"; "a"; "m"; "p"; ";"]
  else [c].

Definition escape_chars (v : list ascii) : list ascii := flat_map escape_char v.

Definition escape (v : string) : string := string_of_list_ascii (escape_chars (list_ascii_of_string v)).

(** The characters the parser reports as a fragment of their own: the
    two entities and the newline. *)
Definition single_fragment (c : ascii) : bool := (c =? "<") || (c =? "&") || (c =? "010").

(** The pending text run as a fragment, when it is not empty. *)
Definition flush_str (acc : list ascii) : list string :=
  match acc with [] => [] | _ => [string_of_list_ascii (rev acc)] end.

(** The character-data fragments of a text, after the pending run
    [acc] (reversed). *)
Fixpoint text_frags (v : list ascii) (acc : list ascii) : list string :=
  match v with
  | [] => flush_str acc
  | c :: v' =>
      if single_fragment c then flush_str acc ++ [string_of_list_ascii [c]] ++ text_frags v' []
      else text_frags v' (c :: acc)
  end.

Local Open Scope string_scope.

(** [<k>v</k>] *)
Definition element (k v : string) : string :=
  "<" ++ k ++ ">" ++ escape v ++ "</" ++ k ++ ">".

Definition elements_doc (es : list (string * string)) : string :=
  concat_frags (map (fun '(k, v) => element k v) es).

(** A feature file: the root element and one element per entry. *)
Definition feature_doc (root : string) (es : list (string * string)) : string :=
  "<" ++ root ++ ">" ++ elements_doc es ++ "</" ++ root ++ ">".

(** The callbacks an element fires: an empty element has no text. *)
Definition element_events (k v : string) : list xml_event :=
  [StartElement k] ++ map CharData (text_frags (list_ascii_of_string v) []) ++ [EndElement k].

Definition feature_events (root : string) (es : list (string * string)) : list xml_event :=
  [StartElement root] ++ flat_map (fun '(k, v) => element_events k v) es ++ [EndElement root].

Definition valid_entry (e : string * string) : bool := valid_name e.1.

Local Close Scope string_scope.

(** ** Lemmas on the characters of a string *)

Lemma list_ascii_app (a b : string) :
  list_ascii_of_string (a ++ b) = list_ascii_of_string a ++ list_ascii_of_string b.
Proof. induction a as [|c a IH]; [done|]. rewrite string_app_cons. simpl. by rewrite IH. Qed.

Lemma list_ascii_length (a : string) : List.length (list_ascii_of_string a) = String.length a.
Proof. induction a as [|c a IH]; simpl; lia. Qed.

Lemma list_ascii_empty (a : string) : list_ascii_of_string a = [] <-> a = ""%string.
Proof. destruct a; simpl; split; congruence. Qed.

Lemma concat_frags_app (l1 l2 : list string) :
  concat_frags (l1 ++ l2) = (concat_frags l1 ++ concat_frags l2)%string.
Proof.
  induction l1 as [|s l1 IH]; [done|].
  by rewrite <-app_comm_cons, !concat_frags_cons, IH, string_app_assoc.
Qed.

#[export] Hint Rewrite list_ascii_app list_ascii_length : snf_rw.

(** ** The lexer on the pieces of a feature document *)

Lemma name_char_not_end c : name_char c = true ->
  Lite.is_name_end c = false /\ (c =? "?") = false /\ (c =? "!") = false /\
  (c =? "/") = false /\ (c =? ">") = false.
Proof.
  unfold name_char, Lite.is_name_end. rewrite !andb_true_iff, !negb_true_iff, !orb_false_iff.
  intuition.
Qed.

Lemma take_name_spec (n r : list ascii) :
  forallb name_char n = true ->
  Lite.take_name (n ++ ">" :: r) = (n, ">" :: r).
Proof.
  induction n as [|c n IH]; [done|]. simpl. rewrite andb_true_iff. intros [Hc Hn].
  destruct (name_char_not_end c Hc) as (-> & _). by rewrite IH.
Qed.

Lemma prepend_app l1 l2 r : Lite.prepend l1 (Lite.prepend l2 r) = Lite.prepend (l1 ++ l2) r.
Proof. unfold Lite.prepend. simpl. by rewrite app_assoc. Qed.

Lemma prepend_nil r : Lite.prepend [] r = r.
Proof. by destruct r. Qed.

Lemma name_chars (k : string) : valid_name k = true ->
  exists c n, list_ascii_of_string k = c :: n /\ name_char c = true /\ forallb name_char n = true.
Proof.
  unfold valid_name. destruct k as [|c k]; [done|]. simpl. rewrite andb_true_iff. intros [Hc Hk].
  by exists c, (list_ascii_of_string k).
Qed.

Lemma name_chars_str (k : string) c n :
  list_ascii_of_string k = c :: n -> String c (string_of_list_ascii n) = k.
Proof. intros Hkn. by rewrite <-(string_of_list_ascii_of_string k), Hkn. Qed.

(** A start tag [<k>] before the root is closed. *)
Lemma lex_start (k : string) f rest stk :
  valid_name k = true ->
  Lite.lex (S f) ("<" :: list_ascii_of_string k ++ ">" :: rest) stk false [] =
    Lite.prepend [StartElement k] (Lite.lex f rest (k :: stk) false []).
Proof.
  intros Hk. destruct (name_chars k Hk) as (c & n & Hkn & Hc & Hn).
  destruct (name_char_not_end c Hc) as (Hend & Hq & Hb & Hs & Hg).
  rewrite Hkn. cbn [app Lite.lex Ascii.eqb]. simpl Lite.is_prefix. rewrite Hq, Hb, Hs. simpl.
  rewrite Hend, take_name_spec by done. cbn. by rewrite (name_chars_str k c n Hkn).
Qed.

(** An end tag [</k>] that matches the innermost open element. *)
Lemma lex_end (k : string) f rest stk closed acc :
  valid_name k = true ->
  Lite.lex (S f) ("<" :: "/" :: list_ascii_of_string k ++ ">" :: rest) (k :: stk) closed acc =
    Lite.prepend (Lite.flush acc ++ [EndElement k]) (Lite.lex f rest stk (bool_decide (stk = [])) []).
Proof.
  intros Hk. destruct (name_chars k Hk) as (c & n & Hkn & Hc & Hn).
  destruct (name_char_not_end c Hc) as (Hend & _).
  rewrite Hkn. simpl. rewrite Hend, take_name_spec by done.
  simpl. unfold Lite.str. by rewrite (name_chars_str k c n Hkn), String.eqb_refl.
Qed.

Lemma flush_str_flush acc : Lite.flush acc = map CharData (flush_str acc).
Proof. by destruct acc. Qed.

(** The text of an element up to its end tag: one step per character
    of the value, whatever the escaping made of it. *)
Lemma lex_text_end (v : list ascii) (k : string) f rest stk closed acc :
  valid_name k = true ->
  Lite.lex (List.length v + S f)
    (escape_chars v ++ "<" :: "/" :: list_ascii_of_string k ++ ">" :: rest) (k :: stk) closed acc =
    Lite.prepend (map CharData (text_frags v acc) ++ [EndElement k])
      (Lite.lex f rest stk (bool_decide (stk = [])) []).
Proof.
  intros Hk. revert acc. induction v as [|c v IH]; intros acc.
  { cbn [List.length Nat.add escape_chars flat_map app text_frags]. by rewrite lex_end, flush_str_flush. }
  cbn [List.length Nat.add escape_chars flat_map text_frags]. fold (escape_chars v).
  unfold single_fragment, escape_char.
  destruct (c =? "<")%char eqn:Hlt; [apply Ascii.eqb_eq in Hlt as ->|];
    [|destruct (c =? "&")%char eqn:Hamp; [apply Ascii.eqb_eq in Hamp as ->|]];
    [| |destruct (c =? "010")%char eqn:Hnl; [apply Ascii.eqb_eq in Hnl as ->|]];
    cbn; rewrite ?Hlt, ?Hamp, ?Hnl, ?IH; cbn;
    rewrite ?prepend_app, ?flush_str_flush, ?map_app, <-?app_assoc; try done.
Qed.

(** ** The fragments of a text *)

Lemma string_of_list_ascii_app (a b : list ascii) :
  string_of_list_ascii (a ++ b) = (string_of_list_ascii a ++ string_of_list_ascii b)%string.
Proof. induction a as [|c a IH]; [done|]. simpl. by rewrite IH. Qed.

Lemma flush_str_concat acc : concat_frags (flush_str acc) = string_of_list_ascii (rev acc).
Proof. by destruct acc. Qed.

(** The fragments concatenate to the pending run followed by the text. *)
Lemma text_frags_concat v acc :
  concat_frags (text_frags v acc) = string_of_list_ascii (rev acc ++ v).
Proof.
  revert acc. induction v as [|c v IH]; intros acc; simpl; [by rewrite flush_str_concat, app_nil_r|].
  destruct (single_fragment c).
  - rewrite !concat_frags_app, flush_str_concat, concat_frags_cons, IH. cbn [rev app].
    by rewrite string_of_list_ascii_app.
  - rewrite IH. simpl. by rewrite <-app_assoc.
Qed.

Lemma text_frags_nil v acc : text_frags v acc = [] -> v = [] /\ acc = [].
Proof.
  revert acc. induction v as [|c v IH]; intros acc; simpl.
  - by destruct acc.
  - destruct (single_fragment c); [intros H; by apply app_eq_nil in H as [_ ?]|].
    intros H. by destruct (IH _ H).
Qed.

(** The characters of [<k>v</k>], followed by [rest]. *)
Lemma element_chars k v rest :
  list_ascii_of_string (element k v) ++ rest =
    "<" :: list_ascii_of_string k ++ ">" :: escape_chars (list_ascii_of_string v) ++
    "<" :: "/" :: list_ascii_of_string k ++ ">" :: rest.
Proof.
  unfold element, escape. rewrite !list_ascii_app, list_ascii_of_string_of_list_ascii.
  simpl. repeat (rewrite <-app_assoc; simpl). done.
Qed.

(** An element inside the root: [2 + length v] steps. *)
Lemma lex_element k v f rest top stk :
  valid_entry (k, v) = true ->
  Lite.lex (2 + String.length v + f) (list_ascii_of_string (element k v) ++ rest) (top :: stk) false [] =
    Lite.prepend (element_events k v) (Lite.lex f rest (top :: stk) false []).
Proof.
  unfold valid_entry. cbn [fst]. intros Hk.
  rewrite element_chars.
  replace (2 + String.length v + f) with (S (List.length (list_ascii_of_string v) + S f))
    by (rewrite list_ascii_length; lia).
  rewrite lex_start, lex_text_end by done. rewrite bool_decide_eq_false_2 by done.
  by rewrite prepend_app.
Qed.

(** The steps the elements of a feature document take. *)
Definition elements_cost (es : list (string * string)) : nat :=
  list_sum (map (fun e => 2 + String.length e.2) es).

Lemma elements_doc_cons k v es :
  elements_doc ((k, v) :: es) = (element k v ++ elements_doc es)%string.
Proof. apply concat_frags_cons. Qed.

Lemma lex_elements es f rest top stk :
  Forall (fun e => valid_entry e = true) es ->
  Lite.lex (elements_cost es + f) (list_ascii_of_string (elements_doc es) ++ rest) (top :: stk) false [] =
    Lite.prepend (flat_map (fun '(k, v) => element_events k v) es) (Lite.lex f rest (top :: stk) false []).
Proof.
  induction 1 as [|[k v] es Hkv Hes IH]; [simpl; by rewrite prepend_nil|].
  rewrite elements_doc_cons, list_ascii_app, <-app_assoc.
  replace (elements_cost ((k, v) :: es) + f) with (2 + String.length v + (elements_cost es + f))
    by (unfold elements_cost; simpl; lia).
  rewrite lex_element, IH by done. by rewrite prepend_app.
Qed.

Lemma escape_length v : String.length v <= String.length (escape v).
Proof.
  unfold escape. rewrite <-!list_ascii_length, list_ascii_of_string_of_list_ascii.
  induction (list_ascii_of_string v) as [|c l IH]; [done|].
  cbn [escape_chars flat_map]. rewrite app_length. fold (escape_chars l).
  unfold escape_char. destruct (c =? "<")%char, (c =? "&")%char; simpl; lia.
Qed.

Lemma elements_cost_le es : elements_cost es <= String.length (elements_doc es).
Proof.
  induction es as [|[k v] es IH]; [done|].
  rewrite elements_doc_cons.
  change (elements_cost ((k, v) :: es)) with (2 + String.length v + elements_cost es).
  pose proof (escape_length v). unfold element. rewrite !string_app_length. simpl. lia.
Qed.

Lemma feature_doc_chars root es :
  list_ascii_of_string (feature_doc root es) =
    "<" :: list_ascii_of_string root ++ ">" ::
      (list_ascii_of_string (elements_doc es) ++ "<" :: "/" :: list_ascii_of_string root ++ ">" :: []).
Proof. unfold feature_doc. rewrite !list_ascii_app. simpl. repeat (rewrite <-app_assoc; simpl). done. Qed.

Lemma feature_doc_length root es :
  String.length (feature_doc root es) = 5 + 2 * String.length root + String.length (elements_doc es).
Proof. unfold feature_doc. rewrite !string_app_length. simpl. lia. Qed.

(** ** The parser on a feature document *)

(** A feature document whose names are plain names and whose values
    are plain text is accepted, and the callbacks fire exactly in
    document order: the root opens, each entry gives its start tag,
    its text when it has any, and its end tag, and the root closes. *)
Theorem feature_doc_parses root es :
  valid_name root = true -> Forall (fun e => valid_entry e = true) es ->
  Lite.parse_document (feature_doc root es) = (feature_events root es, true).
Proof.
  intros Hroot Hes. unfold Lite.parse_document. rewrite list_ascii_length.
  pose proof (elements_cost_le es). pose proof (feature_doc_length root es).
  replace (S (String.length (feature_doc root es)))
    with (S (elements_cost es + S (S (String.length (feature_doc root es) - elements_cost es - 2)))) by lia.
  rewrite feature_doc_chars, lex_start, lex_elements, lex_end by done.
  rewrite bool_decide_eq_true_2 by done. cbn.
  unfold feature_events, Lite.prepend. done.
Qed.

(** ** Two top-level elements *)

(** A top-level element: after its end tag the root is closed. *)
Lemma lex_element_top k v f rest :
  valid_entry (k, v) = true ->
  Lite.lex (2 + String.length v + f) (list_ascii_of_string (element k v) ++ rest) [] false [] =
    Lite.prepend (element_events k v) (Lite.lex f rest [] true []).
Proof.
  unfold valid_entry. cbn [fst]. intros Hk.
  rewrite element_chars.
  replace (2 + String.length v + f) with (S (List.length (list_ascii_of_string v) + S f))
    by (rewrite list_ascii_length; lia).
  rewrite lex_start, lex_text_end by done. rewrite bool_decide_eq_true_2 by done.
  by rewrite prepend_app.
Qed.

(** A start tag after the root element closed is rejected. *)
Lemma lex_after_root (k : string) f rest :
  valid_name k = true ->
  Lite.lex (S f) ("<" :: list_ascii_of_string k ++ ">" :: rest) [] true [] = ([], false).
Proof.
  intros Hk. destruct (name_chars k Hk) as (c & n & Hkn & Hc & Hn).
  destruct (name_char_not_end c Hc) as (Hend & Hq & Hb & Hs & Hg).
  rewrite Hkn. cbn [app Lite.lex Ascii.eqb]. simpl Lite.is_prefix. rewrite Hq, Hb, Hs. simpl.
  rewrite Hend, take_name_spec by done. done.
Qed.

(** The document [<k1>v1</k1><k2>v2</k2>] has two top-level elements:
    the parser reports the first element and rejects the document at
    the second start tag. *)
Lemma two_roots_parse k1 v1 k2 v2 :
  valid_name k1 = true -> valid_name k2 = true ->
  Lite.parse_document (element k1 v1 ++ element k2 v2) = (element_events k1 v1, false).
Proof.
  intros Hk1 Hk2. unfold Lite.parse_document. rewrite list_ascii_length, list_ascii_app.
  pose proof (escape_length v1). unfold element at 1 3. rewrite !string_app_length. fold (element k1 v1).
  replace (S _) with (2 + String.length v1 + S (String.length (element k2 v2) + 3 +
    2 * String.length k1 + (String.length (escape v1) - String.length v1))) by (simpl; lia).
  rewrite lex_element_top by done. rewrite <-(app_nil_r (list_ascii_of_string (element k2 v2))).
  rewrite element_chars, lex_after_root by done. unfold Lite.prepend. simpl. by rewrite app_nil_r.
Qed.
