(* ===== verification/Handlers.v ===== *)
(** The expat callbacks of [SecNativeFeatureCppIf.cpp]: [ParserUserData],
    [charDataHandler], [startElement] and [endElement].

    In the source, [ParserUserData.pFeatures] points to the store's own
    [_features], and [charDataHandler] writes through it. Here the field
    [pFeatures] holds the pointee, the map itself. [Loader.v] copies it
    back into the store on every exit of [_loadFeature], which is what
    the pointer achieves. The handlers are written against the
    [StdMap] interface and proved with its laws only. *)

From S2P Require Import Prelude StdMap Expat.

Section Handlers.

Local Open Scope snf_scope.

Context {M : Type} `{StdMapSpec M}.

Record ParserUserData := {
  curr_name : string;
  pFeatures : M;
  depth : Z
}.

(** [charDataHandler(userData, s, len)] *)
Definition charDataHandler (d : ParserUserData) (s : string) : ParserUserData :=
  let value := s in
  let name := curr_name d in
  if name ==s "" then d
  else
    let '(value, features) :=
      match sm_find name (pFeatures d) with
      | Some old => ((old ++ value)%string, sm_erase name (pFeatures d))
      | None => (value, pFeatures d)
      end in
    {| curr_name := name; pFeatures := sm_insert name value features; depth := depth d |}.

(** [startElement(userData, name, atts)] *)
Definition startElement (d : ParserUserData) (name : string) : ParserUserData :=
  {| curr_name := name; pFeatures := pFeatures d; depth := depth d + 1 |}.

(** [endElement(userData, name)] *)
Definition endElement (d : ParserUserData) (name : string) : ParserUserData :=
  {| curr_name := ""; pFeatures := pFeatures d; depth := depth d - 1 |}.

(** The callback expat fires for an event. *)
Definition handle (d : ParserUserData) (e : xml_event) : ParserUserData :=
  match e with
  | StartElement n => startElement d n
  | EndElement n => endElement d n
  | CharData s => charDataHandler d s
  end.

Definition handle_events (d : ParserUserData) (evs : list xml_event) : ParserUserData :=
  fold_left handle evs d.

(** The abstract value of a key: the empty string when absent. *)
Definition stored (m : M) (k : string) : string := default "" (sm_abs m !! k).

Definition is_start (e : xml_event) : bool :=
  match e with StartElement _ => true | _ => false end.

Definition is_end (e : xml_event) : bool :=
  match e with EndElement _ => true | _ => false end.

Definition start_count (evs : list xml_event) : Z := Z.of_nat (length (List.filter is_start evs)).

Definition end_count (evs : list xml_event) : Z := Z.of_nat (length (List.filter is_end evs)).

(** The names of the elements the events open. *)
Definition started (evs : list xml_event) : gset string :=
  list_to_set (omap (fun e => match e with StartElement n => Some n | _ => None end) evs).

(** ** Lemmas *)

Lemma startElement_pFeatures d n : pFeatures (startElement d n) = pFeatures d.
Proof. done. Qed.

Lemma startElement_curr_name d n : curr_name (startElement d n) = n.
Proof. done. Qed.

Lemma endElement_pFeatures d n : pFeatures (endElement d n) = pFeatures d.
Proof. done. Qed.

Lemma endElement_curr_name d n : curr_name (endElement d n) = "".
Proof. done. Qed.

Lemma handle_events_app d evs1 evs2 :
  handle_events d (evs1 ++ evs2) = handle_events (handle_events d evs1) evs2.
Proof. apply fold_left_app. Qed.

Lemma handle_events_cons d e evs :
  handle_events d (e :: evs) = handle_events (handle d e) evs.
Proof. done. Qed.

Lemma charData_wf d s : sm_wf (pFeatures d) -> sm_wf (pFeatures (charDataHandler d s)).
Proof.
  intros Hwf. unfold charDataHandler. destruct (String.eqb _ _); [done|].
  destruct (sm_find _ _); simpl; apply sm_wf_insert; [apply sm_wf_erase|]; done.
Qed.

Lemma handle_wf d e : sm_wf (pFeatures d) -> sm_wf (pFeatures (handle d e)).
Proof. destruct e; simpl; [done|done|apply charData_wf]. Qed.

(** The erase-then-insert of [charDataHandler] is an append-or-insert
    on the abstract map. *)
Lemma charData_abs d s :
  sm_wf (pFeatures d) -> curr_name d <> "" ->
  sm_abs (pFeatures (charDataHandler d s)) =
    <[curr_name d := (stored (pFeatures d) (curr_name d) ++ s)%string]> (sm_abs (pFeatures d)).
Proof.
  intros Hwf Hne. unfold charDataHandler, stored.
  rewrite string_eqb_neq by done. rewrite sm_find_abs.
  destruct (sm_abs (pFeatures d) !! curr_name d) as [old|] eqn:Hold; simpl.
  - rewrite sm_abs_insert by (by apply sm_wf_erase).
    rewrite sm_abs_erase, lookup_delete_eq by done.
    by rewrite insert_delete_eq.
  - by rewrite sm_abs_insert, Hold.
Qed.

Lemma charData_noname d s : curr_name d = "" -> charDataHandler d s = d.
Proof. intros Hn. unfold charDataHandler. by rewrite Hn. Qed.

Lemma charData_curr_name d s : curr_name (charDataHandler d s) = curr_name d.
Proof.
  unfold charDataHandler. destruct (String.eqb _ _); [done|].
  by destruct (sm_find _ _).
Qed.

Lemma charData_depth d s : depth (charDataHandler d s) = depth d.
Proof.
  unfold charDataHandler. destruct (String.eqb _ _); [done|].
  by destruct (sm_find _ _).
Qed.


Lemma start_count_cons e evs :
  (start_count (e :: evs) = (if is_start e then 1 else 0) + start_count evs)%Z.
Proof. unfold start_count. destruct e; simpl; lia. Qed.

Lemma end_count_cons e evs :
  (end_count (e :: evs) = (if is_end e then 1 else 0) + end_count evs)%Z.
Proof. unfold end_count. destruct e; simpl; lia. Qed.

Lemma started_cons e evs :
  started (e :: evs) =
    (match e with StartElement n => {[n]} | _ => ∅ end) ∪ started evs.
Proof. unfold started. destruct e; simpl; set_solver. Qed.

Lemma handle_events_wf d evs :
  sm_wf (pFeatures d) -> sm_wf (pFeatures (handle_events d evs)).
Proof.
  revert d. induction evs as [|e evs IH]; intros d Hwf; [done|].
  by apply IH, handle_wf.
Qed.

(** Character data outside an open element changes nothing. *)
Lemma chars_noname d ts : curr_name d = "" -> handle_events d (map CharData ts) = d.
Proof.
  revert d. induction ts as [|t ts IH]; intros d Hn; [done|].
  simpl. rewrite charData_noname by done. by apply IH.
Qed.

(** One step of the key bound: a callback adds at most the current
    name, and only when it is not empty. *)
Lemma handle_dom d e : sm_wf (pFeatures d) ->
  dom (sm_abs (pFeatures (handle d e))) ⊆ dom (sm_abs (pFeatures d)) ∪ ({[curr_name d]} ∖ {[""]}).
Proof.
  intros Hwf. destruct e as [n|n|s]; simpl; [set_solver|set_solver|].
  destruct (String.eqb_spec (curr_name d) "") as [Hn|Hn].
  - rewrite charData_noname by done. set_solver.
  - rewrite charData_abs, dom_insert_L by done. set_solver.
Qed.

Lemma handle_curr_name d e :
  curr_name (handle d e) = match e with
                           | StartElement n => n
                           | EndElement _ => ""
                           | CharData _ => curr_name d
                           end.
Proof. destruct e; simpl; [done|done|apply charData_curr_name]. Qed.

Lemma handle_depth d e :
  (depth (handle d e) = depth d + (if is_start e then 1 else 0) - (if is_end e then 1 else 0))%Z.
Proof. destruct e; simpl; rewrite ?charData_depth; lia. Qed.

(** The projections [curr_name] and [pFeatures] of a callback do not
    depend on [depth]. *)
Definition with_depth (d : ParserUserData) (z : Z) : ParserUserData :=
  {| curr_name := curr_name d; pFeatures := pFeatures d; depth := z |}.

Lemma handle_with_depth d z e :
  handle (with_depth d z) e = with_depth (handle d e) (depth (handle (with_depth d z) e)).
Proof.
  destruct e; simpl; [done|done|].
  unfold charDataHandler, with_depth; simpl.
  destruct (String.eqb _ _); [done|]. by destruct (sm_find _ _).
Qed.


Lemma stored_charData d s :
  sm_wf (pFeatures d) -> curr_name d <> "" ->
  stored (pFeatures (charDataHandler d s)) (curr_name d) =
    (stored (pFeatures d) (curr_name d) ++ s)%string.
Proof. intros. unfold stored at 1. by rewrite charData_abs, lookup_insert_eq by done. Qed.

(** A run of character data inside element [curr_name d]. *)
Lemma chars_abs d frags :
  sm_wf (pFeatures d) -> curr_name d <> "" -> frags <> [] ->
  sm_abs (pFeatures (handle_events d (map CharData frags))) =
    <[curr_name d := (stored (pFeatures d) (curr_name d) ++ concat_frags frags)%string]>
      (sm_abs (pFeatures d)).
Proof.
  revert d. induction frags as [|s fr IH]; intros d Hwf Hn Hne; [done|].
  rewrite map_cons, handle_events_cons. simpl handle.
  destruct (decide (fr = [])) as [->|Hfr].
  - cbn [map handle_events fold_left]. by rewrite charData_abs by done.
  - rewrite IH, charData_curr_name, stored_charData, charData_abs by
      (rewrite ?charData_curr_name; auto using charData_wf).
    by rewrite insert_insert_eq, concat_frags_cons, string_app_assoc.
Qed.


(** The callbacks on an abstract state: the current name and the map
    as a [gmap]. Character data appends to the key of the open element,
    which is the map append [features[curr_name] += value] the erase-then-insert
    of [charDataHandler] means. *)
Definition abs_handle (a : string * gmap string string) (e : xml_event) : string * gmap string string :=
  match e with
  | StartElement n => (n, a.2)
  | EndElement _ => ("", a.2)
  | CharData s =>
      if a.1 ==s "" then a else (a.1, <[a.1 := (default "" (a.2 !! a.1) ++ s)%string]> a.2)
  end.

Definition abs_of (d : ParserUserData) : string * gmap string string := (curr_name d, sm_abs (pFeatures d)).

Lemma handle_abs d e : sm_wf (pFeatures d) -> abs_of (handle d e) = abs_handle (abs_of d) e.
Proof.
  intros Hwf. destruct e as [n|n|s]; [done|done|]. unfold abs_of. simpl.
  rewrite charData_curr_name.
  destruct (String.eqb_spec (curr_name d) "") as [Hn|Hn]; [by rewrite charData_noname|].
  by rewrite charData_abs.
Qed.

Lemma handle_events_abs d evs :
  sm_wf (pFeatures d) ->
  sm_wf (pFeatures (handle_events d evs)) /\
  abs_of (handle_events d evs) = fold_left abs_handle evs (abs_of d).
Proof.
  revert d. induction evs as [|e evs IH]; intros d Hwf; [done|].
  rewrite handle_events_cons. simpl fold_left. rewrite <- handle_abs by done.
  by apply IH, handle_wf.
Qed.

(** Two fragments of character data in a row act as their
    concatenation. *)
Lemma abs_handle_chars a x y :
  abs_handle (abs_handle a (CharData x)) (CharData y) = abs_handle a (CharData (x ++ y)).
Proof.
  destruct a as [n m]. cbn. destruct (String.eqb_spec n "") as [->|Hn]; [done|]. cbn.
  rewrite string_eqb_neq by done. rewrite lookup_insert_eq, insert_insert_eq, string_app_assoc. done.
Qed.

Lemma fold_abs_coalesce evs a :
  fold_left abs_handle (coalesce evs) a = fold_left abs_handle evs a.
Proof.
  revert a. induction evs as [|e evs IH]; intros a; [done|].
  destruct e as [n|n|x]; cbn [coalesce fold_left]; [apply IH|apply IH|].
  rewrite <- (IH (abs_handle a (CharData x))).
  destruct (coalesce evs) as [|[n|n|y] r]; [done|done|done|].
  cbn [fold_left]. by rewrite abs_handle_chars.
Qed.

(** The callbacks give the same map contents and current name whether
    expat merges adjacent character data or splits it. *)
Lemma handle_events_coalesce d evs :
  sm_wf (pFeatures d) ->
  abs_of (handle_events d (coalesce evs)) = abs_of (handle_events d evs).
Proof.
  intros Hwf. rewrite (proj2 (handle_events_abs d _ Hwf)), (proj2 (handle_events_abs d _ Hwf)).
  apply fold_abs_coalesce.
Qed.

(** ** Properties of the callbacks *)

(** C9: the character data of one element, delivered by expat as
    several fragments, is stored as their concatenation, appended to
    what the key held before. *)
Theorem charData_fragments_concat d name frags :
  sm_wf (pFeatures d) -> name <> "" -> frags <> [] ->
  sm_abs (pFeatures (handle_events d (StartElement name :: map CharData frags))) =
    <[name := (stored (pFeatures d) name ++ concat_frags frags)%string]> (sm_abs (pFeatures d)).
Proof.
  intros Hwf Hn Hne. rewrite handle_events_cons.
  by apply (chars_abs (startElement d name)).
Qed.

(** C32: the callbacks refine the abstract handlers [abs_handle] on
    a [gmap], for every sequence of callbacks: the map stays sorted
    with distinct keys, and its contents and the current name are
    those the abstract handlers compute. On both branches of
    [charDataHandler], the erase of a present key followed by the
    insert at the [begin()] hint is the append-or-insert of the
    reference; text outside an element changes nothing. *)
Theorem handle_events_refines d evs :
  sm_wf (pFeatures d) ->
  sm_wf (pFeatures (handle_events d evs)) /\
  abs_of (handle_events d evs) = fold_left abs_handle evs (abs_of d).
Proof. apply handle_events_abs. Qed.

(** C10: text that follows the close of a nested element, before the
    parent closes, is dropped: in [<p>a<c>b</c>t</p>] the parent gets
    [a], the child gets [b], and [t] is stored nowhere. *)
Theorem nested_text_dropped d p c a b t :
  sm_wf (pFeatures d) -> p <> "" -> c <> "" -> p <> c ->
  sm_abs (pFeatures (handle_events d
    [StartElement p; CharData a; StartElement c; CharData b; EndElement c; CharData t; EndElement p])) =
  <[c := (stored (pFeatures d) c ++ b)%string]>
    (<[p := (stored (pFeatures d) p ++ a)%string]> (sm_abs (pFeatures d))).
Proof.
  intros Hwf Hp Hc Hpc.
  change [StartElement p; CharData a; StartElement c; CharData b; EndElement c; CharData t; EndElement p]
    with ([StartElement p; CharData a; StartElement c; CharData b] ++
          EndElement c :: map CharData [t] ++ [EndElement p]).
  rewrite handle_events_app, handle_events_cons, handle_events_app, chars_noname by done.
  cbn [handle_events fold_left handle]. rewrite !endElement_pFeatures.
  rewrite charData_abs; rewrite ?startElement_pFeatures, ?startElement_curr_name;
    auto using charData_wf.
  rewrite ?charData_curr_name, ?startElement_curr_name.
  unfold stored at 1.
  rewrite charData_abs, lookup_insert_ne;
    rewrite ?startElement_pFeatures, ?startElement_curr_name; auto.
Qed.

(** C34: [depth] is the number of elements opened minus the number
    closed, for every sequence of callbacks. *)
Theorem depth_counts d evs :
  depth (handle_events d evs) = (depth d + start_count evs - end_count evs)%Z.
Proof.
  revert d. induction evs as [|e evs IH]; intros d; [unfold start_count, end_count; simpl; lia|].
  rewrite handle_events_cons, IH, handle_depth, start_count_cons, end_count_cons. lia.
Qed.

(** C33: the map and the current name never depend on [depth]: the
    loader does not restrict itself to depth-1 elements, so the root
    element and every nested element are recorded like the others. *)
Theorem depth_irrelevant d z evs :
  pFeatures (handle_events (with_depth d z) evs) = pFeatures (handle_events d evs) /\
  curr_name (handle_events (with_depth d z) evs) = curr_name (handle_events d evs).
Proof.
  revert d z. induction evs as [|e evs IH]; intros d z; [done|].
  rewrite !handle_events_cons, handle_with_depth. apply IH.
Qed.

(** C35: every key the callbacks add is a non-empty element name:
    the current name at the start or the name of an opened element. *)
Theorem keys_from_element_names d evs :
  sm_wf (pFeatures d) ->
  dom (sm_abs (pFeatures (handle_events d evs))) ⊆
    dom (sm_abs (pFeatures d)) ∪ (({[curr_name d]} ∪ started evs) ∖ {[""]}).
Proof.
  revert d. induction evs as [|e evs IH]; intros d Hwf; [set_solver|].
  rewrite handle_events_cons, started_cons.
  pose proof (handle_dom d e Hwf) as Hd.
  pose proof (handle_curr_name d e) as Hc.
  etransitivity; [apply IH; by apply handle_wf|].
  destruct e; rewrite Hc in *; set_solver.
Qed.

End Handlers.

#[export] Hint Resolve handle_wf charData_wf handle_events_wf : snf.
#[export] Hint Rewrite @handle_events_app @handle_events_cons : snf_rw.

(** ** Concrete runs, on the sorted association list *)

(** A concrete map is well formed when its keys are sorted. *)
Ltac concrete_wf := apply SortedAssoc.sortedb_wf; vm_compute; reflexivity.

Definition ud0 : @ParserUserData SortedAssoc.t :=
  {| curr_name := ""; pFeatures := [("A", "x")]; depth := 0 |}.

Lemma charData_fragments_concat_witness :
  sm_abs (pFeatures (handle_events ud0 (StartElement "B" :: map CharData ["ab"; "cd"]))) =
    <["B" := "abcd"]> (sm_abs (pFeatures ud0)).
Proof.
  rewrite (charData_fragments_concat ud0 "B" ["ab"; "cd"]);
    [vm_compute; reflexivity | concrete_wf | discriminate | discriminate].
Defined.

Lemma handle_events_refines_witness :
  sm_wf (pFeatures (handle_events ud0 [CharData "t"; StartElement "A"; CharData "y"; EndElement "A"; CharData "u"])) /\
  abs_of (handle_events ud0 [CharData "t"; StartElement "A"; CharData "y"; EndElement "A"; CharData "u"]) =
    fold_left abs_handle [CharData "t"; StartElement "A"; CharData "y"; EndElement "A"; CharData "u"] (abs_of ud0).
Proof. apply handle_events_refines. concrete_wf. Defined.

Lemma nested_text_dropped_witness :
  sm_abs (pFeatures (handle_events ud0
    [StartElement "P"; CharData "a"; StartElement "C"; CharData "b"; EndElement "C";
     CharData "t"; EndElement "P"])) =
  <["C" := "b"]> (<["P" := "a"]> (sm_abs (pFeatures ud0))).
Proof.
  rewrite nested_text_dropped; [vm_compute; reflexivity | concrete_wf | discriminate..].
Defined.

Lemma keys_from_element_names_witness :
  dom (sm_abs (pFeatures (handle_events ud0 [StartElement "root"; CharData "t"; StartElement "B"]))) ⊆
    dom (sm_abs (pFeatures ud0)) ∪ (({[curr_name ud0]} ∪ started [StartElement "root"; CharData "t"; StartElement "B"]) ∖ {[""]}).
Proof. apply keys_from_element_names. concrete_wf. Defined.

Lemma depth_counts_witness :
  depth (handle_events ud0 [StartElement "root"; StartElement "A"; EndElement "A"]) =
    (depth ud0 + start_count [StartElement "root"; StartElement "A"; EndElement "A"]
               - end_count [StartElement "root"; StartElement "A"; EndElement "A"])%Z /\
  depth (handle_events ud0 [StartElement "root"; StartElement "A"; EndElement "A"]) = 1%Z.
Proof. split; [apply depth_counts|reflexivity]. Defined.

Lemma depth_irrelevant_witness :
  pFeatures (handle_events (with_depth ud0 7) [StartElement "root"; CharData "x"]) =
    pFeatures (handle_events ud0 [StartElement "root"; CharData "x"]) /\
  curr_name (handle_events (with_depth ud0 7) [StartElement "root"; CharData "x"]) =
    curr_name (handle_events ud0 [StartElement "root"; CharData "x"]).
Proof. apply depth_irrelevant. Defined.
