(* ===== verification/Loader.v ===== *)
(** [SecNativeFeature::_loadFeature(xmlPath, xmlPath2)].

    The C library calls are modelled here. A file system maps a path to
    a file: its contents, whether it is readable, and an optional read
    fault (the offset of the first byte whose read fails). [fopen]
    opens a readable file. [fread] reads up to [BUFSIZ] bytes from the
    stream position, and stops short with the error flag set at a
    fault. [ferror] returns the flag. The [resources] counters track
    the open [FILE]s and the expat parsers not yet freed.

    The do-while loop of the source is [parse_loop]. It takes fuel, and
    [load_fuel] gives enough: the loop reads one buffer per iteration
    and ends at the first short read. [_loadFeature] runs the loop with
    [load_fuel]. The theorem [parse_loop_terminates] shows that this
    fuel never runs out, so the fallback branch for empty fuel is dead.

    The map is [userData.pFeatures], that is [_features] itself, so the
    map returned on every exit is the one the callbacks left. *)

From S2P Require Import Prelude StdMap Expat Handlers.

(** bionic's [BUFSIZ]. *)
Definition BUFSIZ : nat := 1024.

Record file := {
  contents : string;
  readable : bool;
  read_fault : option nat
}.

Definition filesystem := gmap string file.

(** A [FILE*] stream. *)
Record FILE := { f_file : file; f_pos : nat; f_error : bool }.

Record resources := { open_files : nat; live_parsers : nat }.

Definition fopen (fs : filesystem) (path : string) : option FILE :=
  match fs !! path with
  | Some f => if readable f then Some {| f_file := f; f_pos := 0; f_error := false |} else None
  | None => None
  end.

(** [fread(buf, 1, n, fp)]: the bytes read and the updated stream. *)
Definition fread (fp : FILE) (n : nat) : string * FILE :=
  let data := substring (f_pos fp) n (contents (f_file fp)) in
  match read_fault (f_file fp) with
  | Some k =>
      if (k <? f_pos fp + String.length data)%nat then
        let got := substring (f_pos fp) (k - f_pos fp) (contents (f_file fp)) in
        (got, {| f_file := f_file fp; f_pos := f_pos fp + String.length got; f_error := true |})
      else (data, {| f_file := f_file fp; f_pos := f_pos fp + String.length data; f_error := f_error fp |})
  | None => (data, {| f_file := f_file fp; f_pos := f_pos fp + String.length data; f_error := f_error fp |})
  end.

Definition ferror (fp : FILE) : bool := f_error fp.

Definition fclose (res : resources) : resources :=
  {| open_files := open_files res - 1; live_parsers := live_parsers res |}.

Definition XML_ParserFree (res : resources) : resources :=
  {| open_files := open_files res; live_parsers := live_parsers res - 1 |}.

Section Loader.

Context {M : Type} `{StdMapSpec M} `{ExpatParser}.

(** The result of [_loadFeature]: its return value, the feature map it
    leaves in [_features], and the resources. *)
Definition load_result : Type := Z * M * resources.

(** The do-while loop of [_loadFeature]. *)
Fixpoint parse_loop (fuel : nat) (parser : XML_Parser) (userData : ParserUserData)
    (fp : FILE) (res : resources) : option load_result :=
  match fuel with
  | O => None
  | S f =>
      let '(buf, fp) := fread fp BUFSIZ in
      let len := String.length buf in
      if negb (len =? BUFSIZ)%nat && ferror fp then
        Some ((-1)%Z, pFeatures userData, fclose res)
      else
        let done := (len <? BUFSIZ)%nat in
        let '(parser, evs, status) := XML_Parse parser buf done in
        let userData := handle_events userData evs in
        match status with
        | XML_STATUS_ERROR => Some ((-1)%Z, pFeatures userData, fclose res)
        | XML_STATUS_OK =>
            if done then Some (0%Z, pFeatures userData, fclose (XML_ParserFree res))
            else parse_loop f parser userData fp res
        end
  end.

Definition load_fuel (fp : FILE) : nat :=
  S ((String.length (contents (f_file fp)) - f_pos fp) / BUFSIZ).

(** The two [fopen] attempts: the second only when the first path is
    NULL or does not open. *)
Definition open_feature_file (fs : filesystem) (xmlPath xmlPath2 : option string) : option FILE :=
  match match xmlPath with Some p => fopen fs p | None => None end with
  | Some fp => Some fp
  | None => match xmlPath2 with Some p => fopen fs p | None => None end
  end.

Definition _loadFeature (fs : filesystem) (features : M) (res : resources)
    (xmlPath xmlPath2 : option string) : load_result :=
  let parser := XML_ParserCreate in
  let res := {| open_files := open_files res; live_parsers := S (live_parsers res) |} in
  let userData := {| curr_name := ""; pFeatures := features; depth := 0%Z |} in
  match open_feature_file fs xmlPath xmlPath2 with
  | None => ((-1)%Z, features, res)
  | Some fp =>
      let res := {| open_files := S (open_files res); live_parsers := live_parsers res |} in
      match parse_loop (load_fuel fp) parser userData fp res with
      | Some r => r
      | None => ((-1)%Z, pFeatures userData, res)
      end
  end.

(** The buffers [parse_loop] reads from position [pos] of a file
    without read fault: [n] full buffers, then the short final one. *)
Fixpoint full_buffers (n pos : nat) (doc : string) : list string :=
  match n with
  | O => []
  | S n' => substring pos BUFSIZ doc :: full_buffers n' (pos + BUFSIZ) doc
  end.

Definition last_buffer (n pos : nat) (doc : string) : string := substring (pos + n * BUFSIZ) BUFSIZ doc.

(** How the loop exits once the parser has reported [evs] and its
    status [st]. *)
Definition stream_result (ud : ParserUserData) (res : resources) (r : list xml_event * XML_Status)
    : load_result :=
  let '(evs, st) := r in
  match st with
  | XML_STATUS_OK => (0%Z, pFeatures (handle_events ud evs), fclose (XML_ParserFree res))
  | XML_STATUS_ERROR => ((-1)%Z, pFeatures (handle_events ud evs), fclose res)
  end.

(** ** Lemmas *)

Lemma fread_spec fp n buf fp' :
  fread fp n = (buf, fp') ->
  f_file fp' = f_file fp /\ f_pos fp' = f_pos fp + String.length buf /\
  String.length buf <= Nat.min n (String.length (contents (f_file fp)) - f_pos fp).
Proof.
  unfold fread. destruct (read_fault (f_file fp)) as [k|].
  - destruct (Nat.ltb_spec k (f_pos fp + String.length (substring (f_pos fp) n (contents (f_file fp)))));
      intros [= <- <-]; simpl; rewrite ?substring_length in *; repeat split; lia.
  - intros [= <- <-]; simpl. rewrite ?substring_length; repeat split; lia.
Qed.

(** One buffer is read per iteration, so [load_fuel] iterations are
    enough. *)
Lemma parse_loop_some fuel parser ud fp res :
  (String.length (contents (f_file fp)) - f_pos fp) / BUFSIZ < fuel ->
  exists r, parse_loop fuel parser ud fp res = Some r.
Proof.
  revert parser ud fp res. induction fuel as [|f IH]; intros parser ud fp res Hf; [lia|].
  simpl. destruct (fread fp BUFSIZ) as [buf fp'] eqn:Hr.
  destruct (fread_spec _ _ _ _ Hr) as (Hfile & Hpos & Hlen).
  destruct (negb _ && _); [eauto|].
  destruct (XML_Parse parser buf _) as [[parser' evs] []]; [eauto|].
  destruct (Nat.ltb_spec (String.length buf) BUFSIZ) as [Hdone|Hfull]; [eauto|].
  apply IH. rewrite Hfile, Hpos. unfold BUFSIZ in *.
  assert (Hb : String.length buf = 1024) by lia. rewrite Hb.
  assert (Hs : String.length (contents (f_file fp)) - f_pos fp =
               (String.length (contents (f_file fp)) - (f_pos fp + 1024)) + 1 * 1024) by lia.
  rewrite Hs, Nat.div_add in Hf by lia. lia.
Qed.

Lemma fread_no_fault fp :
  read_fault (f_file fp) = None ->
  fread fp BUFSIZ =
    (substring (f_pos fp) BUFSIZ (contents (f_file fp)),
     {| f_file := f_file fp; f_pos := f_pos fp + String.length (substring (f_pos fp) BUFSIZ (contents (f_file fp)));
        f_error := f_error fp |}).
Proof. intros Hf. unfold fread. by rewrite Hf. Qed.

Lemma last_buffer_S n pos doc : last_buffer (S n) pos doc = last_buffer n (pos + BUFSIZ) doc.
Proof. unfold last_buffer. f_equal. lia. Qed.

(** The buffers put back together give the rest of the file. *)
Lemma buffers_concat n pos doc :
  (concat_frags (full_buffers n pos doc) ++ last_buffer n pos doc)%string = substring pos (n * BUFSIZ + BUFSIZ) doc.
Proof.
  revert pos. induction n as [|n IH]; intros pos.
  - unfold last_buffer. simpl. by rewrite Nat.add_0_r.
  - rewrite last_buffer_S. cbn [full_buffers]. rewrite concat_frags_cons, <-string_app_assoc, IH.
    by rewrite substring_split.
Qed.

(** From position 0 the buffers give back the whole file. *)
Lemma buffers_concat_all doc :
  (concat_frags (full_buffers (String.length doc / BUFSIZ) 0 doc) ++
   last_buffer (String.length doc / BUFSIZ) 0 doc)%string = doc.
Proof.
  rewrite buffers_concat, substring_all; [done|].
  pose proof (Nat.div_mod (String.length doc) BUFSIZ) as Hd.
  pose proof (Nat.mod_upper_bound (String.length doc) BUFSIZ) as Hm. unfold BUFSIZ in *. lia.
Qed.

Lemma stream_result_app ud res evs r :
  stream_result ud res (let '(evs', st') := r in (evs ++ evs', st')) =
    stream_result (handle_events ud evs) res r.
Proof. destruct r as [evs' []]; unfold stream_result; by rewrite handle_events_app. Qed.

(** For a file without read fault, the loop feeds the parser the
    file's [BUFSIZ] buffers in order, the last one, shorter than
    [BUFSIZ], as final, and stops at the first buffer the parser
    rejects: it computes [run_stream]. *)
Lemma parse_loop_stream fuel n p ud fp res :
  read_fault (f_file fp) = None -> f_error fp = false ->
  n = (String.length (contents (f_file fp)) - f_pos fp) / BUFSIZ -> n < fuel ->
  parse_loop fuel p ud fp res =
    Some (stream_result ud res
            (run_stream p (full_buffers n (f_pos fp) (contents (f_file fp)))
                          (last_buffer n (f_pos fp) (contents (f_file fp))))).
Proof.
  revert n p ud fp. induction fuel as [|f IH]; intros n p ud fp Hf He Hn Hfuel; [lia|].
  set (doc := contents (f_file fp)) in *.
  pose proof (substring_length (f_pos fp) BUFSIZ doc) as Hlen.
  cbn [parse_loop]. rewrite (fread_no_fault fp Hf). fold doc. cbn [ferror f_error]. rewrite He, andb_false_r.
  destruct n as [|n].
  - symmetry in Hn. apply Nat.div_small_iff in Hn; [|unfold BUFSIZ; lia].
    replace (String.length (substring (f_pos fp) BUFSIZ doc) <? BUFSIZ)%nat with true
      by (symmetry; apply Nat.ltb_lt; lia).
    unfold last_buffer. cbn [full_buffers run_stream]. rewrite Nat.mul_0_l, Nat.add_0_r.
    by destruct (XML_Parse p _ true) as [[p' evs] []].
  - assert (Hfull : String.length (substring (f_pos fp) BUFSIZ doc) = BUFSIZ).
    { destruct (Nat.lt_ge_cases (String.length doc - f_pos fp) BUFSIZ) as [Hlt|Hge];
        [rewrite Nat.div_small in Hn by done; lia|unfold BUFSIZ in *; lia]. }
    rewrite Hfull, Nat.ltb_irrefl.
    rewrite last_buffer_S. cbn [full_buffers run_stream].
    destruct (XML_Parse p _ false) as [[p' evs] []]; [done|].
    rewrite (IH n p' (handle_events ud evs) {| f_file := f_file fp; f_pos := f_pos fp + BUFSIZ; f_error := false |});
      cbn [f_file f_pos f_error]; fold doc; [by rewrite stream_result_app|done|done| |lia].
    assert (Hs : String.length doc - f_pos fp = (String.length doc - (f_pos fp + BUFSIZ)) + 1 * BUFSIZ)
      by (unfold BUFSIZ in *; lia).
    rewrite Hs, Nat.div_add in Hn by (unfold BUFSIZ; lia). lia.
Qed.

(** A read fault at [k] inside the file: the loop feeds the parser
    the full buffers before the one holding [k], then the read that
    reaches [k] comes back short with the error flag set. *)
Lemma parse_loop_fault fuel n p ud fp res k :
  read_fault (f_file fp) = Some k -> k < String.length (contents (f_file fp)) ->
  f_error fp = false -> f_pos fp <= k ->
  n = (k - f_pos fp) / BUFSIZ -> (String.length (contents (f_file fp)) - f_pos fp) / BUFSIZ < fuel ->
  parse_loop fuel p ud fp res =
    Some ((-1)%Z, pFeatures (handle_events ud (run_partial p (full_buffers n (f_pos fp) (contents (f_file fp))))),
          fclose res).
Proof.
  revert n p ud fp. induction fuel as [|f IH]; intros n p ud fp Hf Hk He Hpos Hn Hfuel; [lia|].
  set (doc := contents (f_file fp)) in *.
  pose proof (substring_length (f_pos fp) BUFSIZ doc) as Hlen.
  cbn [parse_loop]. unfold fread. rewrite Hf. fold doc.
  destruct (Nat.ltb_spec k (f_pos fp + String.length (substring (f_pos fp) BUFSIZ doc))) as [Hin|Hafter].
  - rewrite substring_length. cbn [ferror f_error].
    replace (Nat.min (k - f_pos fp) (String.length doc - f_pos fp) =? BUFSIZ)%nat with false
      by (symmetry; apply Nat.eqb_neq; unfold BUFSIZ in *; lia).
    rewrite Nat.div_small in Hn by (unfold BUFSIZ in *; lia). subst n. done.
  - assert (Hfull : String.length (substring (f_pos fp) BUFSIZ doc) = BUFSIZ) by (unfold BUFSIZ in *; lia).
    cbn [ferror f_error]. rewrite Hfull, He, andb_false_r, Nat.ltb_irrefl.
    assert (Hs : k - f_pos fp = (k - (f_pos fp + BUFSIZ)) + 1 * BUFSIZ) by (unfold BUFSIZ in *; lia).
    rewrite Hs, Nat.div_add in Hn by (unfold BUFSIZ; lia). subst n. rewrite Nat.add_1_r.
    cbn [full_buffers run_partial].
    destruct (XML_Parse p _ false) as [[p' evs] []]; [done|].
    rewrite (IH ((k - (f_pos fp + BUFSIZ)) / BUFSIZ) p' (handle_events ud evs)
               {| f_file := f_file fp; f_pos := f_pos fp + BUFSIZ; f_error := false |});
      cbn [f_file f_pos f_error]; fold doc; [by rewrite handle_events_app|done|done|done|unfold BUFSIZ in *; lia|done|].
    assert (Hs' : String.length doc - f_pos fp = (String.length doc - (f_pos fp + BUFSIZ)) + 1 * BUFSIZ)
      by (unfold BUFSIZ in *; lia).
    rewrite Hs', Nat.div_add in Hfuel by (unfold BUFSIZ; lia). lia.
Qed.

(** What one run of the loop returns: 0 after freeing the parser and
    closing the file, or -1 after closing the file only. *)
Definition loop_outcome (res : resources) (r : load_result) : Prop :=
  let '(v, _, res') := r in
  (v = 0%Z /\ res' = fclose (XML_ParserFree res)) \/ (v = (-1)%Z /\ res' = fclose res).

Lemma parse_loop_outcome fuel parser ud fp res r :
  parse_loop fuel parser ud fp res = Some r -> loop_outcome res r.
Proof.
  revert parser ud fp. induction fuel as [|f IH]; intros parser ud fp; simpl; [done|].
  destruct (fread fp BUFSIZ) as [buf fp'].
  destruct (negb _ && _); [intros [= <-]; simpl; auto|].
  destruct (XML_Parse parser buf _) as [[parser' evs] []]; [intros [= <-]; simpl; auto|].
  destruct (_ <? _)%nat; [intros [= <-]; simpl; auto|]. apply IH.
Qed.

Lemma parse_loop_wf fuel parser ud fp res v m res' :
  sm_wf (pFeatures ud) ->
  parse_loop fuel parser ud fp res = Some (v, m, res') -> sm_wf m.
Proof.
  revert parser ud fp. induction fuel as [|f IH]; intros parser ud fp Hwf; simpl; [done|].
  destruct (fread fp BUFSIZ) as [buf fp'].
  destruct (negb _ && _); [by intros [= _ <- _]|].
  destruct (XML_Parse parser buf _) as [[parser' evs] []]; [intros [= _ <- _]; eauto with snf|].
  destruct (_ <? _)%nat; [intros [= _ <- _]|apply IH]; eauto with snf.
Qed.

Lemma loadFeature_some fs m res p1 p2 fp :
  open_feature_file fs p1 p2 = Some fp ->
  exists r, parse_loop (load_fuel fp) XML_ParserCreate {| curr_name := ""; pFeatures := m; depth := 0%Z |} fp
              {| open_files := S (open_files res); live_parsers := S (live_parsers res) |} = Some r /\
            _loadFeature fs m res p1 p2 = r.
Proof.
  intros Hopen. unfold _loadFeature. rewrite Hopen. cbv beta zeta. cbn [open_files live_parsers].
  match goal with
  | |- context [parse_loop ?f ?p ?u ?fp ?r] =>
      destruct (parse_loop_some f p u fp r) as [x Hx]; [unfold load_fuel; lia|]
  end.
  exists x. split; [exact Hx|]. by rewrite Hx.
Qed.

Lemma loadFeature_wf fs m res p1 p2 :
  sm_wf m -> sm_wf (_loadFeature fs m res p1 p2).1.2.
Proof.
  intros Hwf. destruct (open_feature_file fs p1 p2) as [fp|] eqn:Hopen.
  - destruct (loadFeature_some fs m res p1 p2 fp Hopen) as ([[v m'] res'] & Hr & ->).
    by eapply parse_loop_wf in Hr.
  - unfold _loadFeature. by rewrite Hopen.
Qed.


Lemma open_feature_file_pos fs p1 p2 fp :
  open_feature_file fs p1 p2 = Some fp -> f_pos fp = 0 /\ f_error fp = false.
Proof.
  unfold open_feature_file, fopen.
  destruct p1 as [p1|]; [destruct (fs !! p1) as [f1|]; [destruct (readable f1)|]|];
    try (intros [= <-]; done);
    (destruct p2 as [p2|]; [destruct (fs !! p2) as [f2|]; [destruct (readable f2)|]|]);
    by intros [= <-].
Qed.

Lemma resources_eta res : {| open_files := open_files res; live_parsers := live_parsers res |} = res.
Proof. by destruct res. Qed.

(** [_loadFeature] on a file without read fault feeds the parser the
    file's buffers. *)
Lemma loadFeature_stream fs m res p1 p2 fp :
  open_feature_file fs p1 p2 = Some fp -> read_fault (f_file fp) = None ->
  _loadFeature fs m res p1 p2 =
    stream_result {| curr_name := ""; pFeatures := m; depth := 0%Z |}
      {| open_files := S (open_files res); live_parsers := S (live_parsers res) |}
      (run_stream XML_ParserCreate
         (full_buffers (String.length (contents (f_file fp)) / BUFSIZ) 0 (contents (f_file fp)))
         (last_buffer (String.length (contents (f_file fp)) / BUFSIZ) 0 (contents (f_file fp)))).
Proof.
  intros Hopen Hf. destruct (open_feature_file_pos _ _ _ _ Hopen) as [Hpos He].
  destruct (loadFeature_some fs m res p1 p2 fp Hopen) as (r & Hr & ->).
  rewrite (parse_loop_stream _ (String.length (contents (f_file fp)) / BUFSIZ)) in Hr;
    rewrite ?Hpos, ?Nat.sub_0_r in *; [congruence|done|done|done|unfold load_fuel; rewrite Hpos, Nat.sub_0_r; lia].
Qed.

(** The resource counters are only threaded through the loop: the
    return value and the map do not depend on them. *)
Lemma parse_loop_res_indep fuel parser ud fp res res' :
  fst <$> parse_loop fuel parser ud fp res = fst <$> parse_loop fuel parser ud fp res'.
Proof.
  revert parser ud fp. induction fuel as [|f IH]; intros parser ud fp; [done|]. simpl.
  destruct (fread fp BUFSIZ) as [buf fp']. destruct (negb _ && _); [done|].
  destruct (XML_Parse parser buf _) as [[parser' evs] []]; [done|].
  destruct (_ <? _)%nat; [done|apply IH].
Qed.

Lemma loadFeature_res_indep fs m res res' p1 p2 :
  (_loadFeature fs m res p1 p2).1 = (_loadFeature fs m res' p1 p2).1.
Proof.
  unfold _loadFeature. destruct (open_feature_file fs p1 p2) as [fp|]; [|done].
  generalize {| curr_name := ""; pFeatures := m; depth := 0%Z |} as ud. intros ud.
  assert (Hm : forall r r',
    (match parse_loop (load_fuel fp) XML_ParserCreate ud fp r with Some x => x | None => ((-1)%Z, pFeatures ud, r) end).1 =
    (match parse_loop (load_fuel fp) XML_ParserCreate ud fp r' with Some x => x | None => ((-1)%Z, pFeatures ud, r') end).1).
  { intros r r'. generalize (parse_loop_res_indep (load_fuel fp) XML_ParserCreate ud fp r r').
    destruct (parse_loop _ _ _ _ r), (parse_loop _ _ _ _ r'); intros Hi; simpl in *; congruence. }
  apply Hm.
Qed.

(** ** Properties of the loader *)

(** C26: the read loop of [_loadFeature] ends within [load_fuel]
    iterations, whatever the file, the read faults and the parser's
    answers: the loop always returns. *)
Theorem parse_loop_terminates fp parser ud res :
  exists r, parse_loop (load_fuel fp) parser ud fp res = Some r.
Proof. apply parse_loop_some. unfold load_fuel. lia. Qed.

(** C11: the second path is tried only when the first one cannot be
    opened. Once the first path opens, the result is that of loading the
    first path alone, also when its parse or read then fails. *)
Theorem loadFeature_fallback fs m res p1 p2 :
  _loadFeature fs m res (Some p1) p2 =
    match fopen fs p1 with
    | Some _ => _loadFeature fs m res (Some p1) None
    | None => _loadFeature fs m res None p2
    end.
Proof. unfold _loadFeature, open_feature_file. by destruct (fopen fs p1). Qed.

(** C20: [_loadFeature] returns 0 or -1. It always closes the file it
    opened, but every -1 exit leaks the expat parser: it is freed only
    on success. *)
Theorem loadFeature_resources fs m res p1 p2 :
  let '(v, _, res') := _loadFeature fs m res p1 p2 in
  (v = 0%Z /\ res' = res) \/
  (v = (-1)%Z /\ open_files res' = open_files res /\ live_parsers res' = S (live_parsers res)).
Proof.
  destruct (open_feature_file fs p1 p2) as [fp|] eqn:Hopen.
  - destruct (loadFeature_some fs m res p1 p2 fp Hopen) as ([[v m'] res'] & Hr & ->).
    apply parse_loop_outcome in Hr as [[-> ->]|[-> ->]]; simpl.
    + left. split; [done|]. destruct res. unfold fclose, XML_ParserFree; simpl. f_equal; lia.
    + right. unfold fclose; simpl. repeat split; lia.
  - unfold _loadFeature. rewrite Hopen. simpl. by right.
Qed.

(** C21: when the parser rejects the first buffer, [_loadFeature]
    fails, and the entries its callbacks stored before the error stay
    in [_features]. *)
Theorem loadFeature_keeps_partial_entries fs m res p1 p2 fp buf fp' pst evs :
  open_feature_file fs p1 p2 = Some fp ->
  fread fp BUFSIZ = (buf, fp') -> ferror fp' = false ->
  XML_Parse XML_ParserCreate buf (String.length buf <? BUFSIZ)%nat = (pst, evs, XML_STATUS_ERROR) ->
  _loadFeature fs m res p1 p2 =
    ((-1)%Z, pFeatures (handle_events {| curr_name := ""; pFeatures := m; depth := 0%Z |} evs),
     {| open_files := open_files res; live_parsers := S (live_parsers res) |}).
Proof.
  intros Hopen Hr He Hp. unfold _loadFeature. rewrite Hopen. unfold load_fuel.
  cbn [parse_loop]. rewrite Hr, He, andb_false_r, Hp.
  unfold fclose. simpl. repeat f_equal; lia.
Qed.

(** C27: a readable file shorter than one buffer, which expat accepts,
    loads with 0: [_features] then holds what the callbacks made of
    its events, and every resource is released. *)
Theorem loadFeature_single_buffer fs m res p1 p2 fp pst evs :
  open_feature_file fs p1 p2 = Some fp ->
  String.length (contents (f_file fp)) < BUFSIZ -> read_fault (f_file fp) = None ->
  XML_Parse XML_ParserCreate (contents (f_file fp)) true = (pst, evs, XML_STATUS_OK) ->
  _loadFeature fs m res p1 p2 =
    (0%Z, pFeatures (handle_events {| curr_name := ""; pFeatures := m; depth := 0%Z |} evs), res).
Proof.
  intros Hopen Hlen Hf Hp. destruct (open_feature_file_pos _ _ _ _ Hopen) as [Hpos He].
  unfold _loadFeature. rewrite Hopen. unfold load_fuel.
  cbn [parse_loop]. unfold fread, ferror. rewrite Hf, Hpos, He, substring_all by lia.
  simpl. rewrite andb_false_r.
  replace (String.length (contents (f_file fp)) <? BUFSIZ)%nat with true
    by (symmetry; apply Nat.ltb_lt; lia).
  rewrite Hp. destruct res. unfold fclose, XML_ParserFree. simpl. repeat f_equal; lia.
Qed.

(** C19: a read fault inside the file fails the load with -1, for
    every parser. The file is closed and the parser leaked. [_features]
    keeps what the callbacks stored for the full buffers read before
    the fault: the load is not undone. *)
Theorem loadFeature_read_error fs m res p1 p2 fp k :
  open_feature_file fs p1 p2 = Some fp -> read_fault (f_file fp) = Some k ->
  k < String.length (contents (f_file fp)) ->
  _loadFeature fs m res p1 p2 =
    ((-1)%Z,
     pFeatures (handle_events {| curr_name := ""; pFeatures := m; depth := 0%Z |}
                  (run_partial XML_ParserCreate (full_buffers (k / BUFSIZ) 0 (contents (f_file fp))))),
     {| open_files := open_files res; live_parsers := S (live_parsers res) |}).
Proof.
  intros Hopen Hf Hk. destruct (open_feature_file_pos _ _ _ _ Hopen) as [Hpos He].
  destruct (loadFeature_some fs m res p1 p2 fp Hopen) as (r & Hr & ->).
  rewrite (parse_loop_fault _ (k / BUFSIZ) _ _ _ _ k) in Hr;
    rewrite ?Hpos, ?Nat.sub_0_r in *; [|done|done|done|lia|done|unfold load_fuel; rewrite Hpos, Nat.sub_0_r; lia].
  injection Hr as <-. unfold fclose. simpl. repeat f_equal; lia.
Qed.

End Loader.

Section LoaderStreaming.

Context {M : Type} `{StdMapSpec M} `{ExpatStreaming}.

(** C17: for every streaming parser, loading a file without read
    fault, of any length, returns what the parser makes of the whole
    contents: the split into [BUFSIZ] buffers does not matter. A
    document the parser accepts loads with 0 and every resource
    released; otherwise the load returns -1 and leaks the parser. The
    map is what the callbacks made of the events either way. *)
Theorem loadFeature_streaming fs m res p1 p2 fp :
  open_feature_file fs p1 p2 = Some fp -> read_fault (f_file fp) = None ->
  _loadFeature fs m res p1 p2 =
    let '(evs, st) := xml_document (contents (f_file fp)) in
    let features := pFeatures (handle_events {| curr_name := ""; pFeatures := m; depth := 0%Z |} evs) in
    match st with
    | XML_STATUS_OK => (0%Z, features, res)
    | XML_STATUS_ERROR => ((-1)%Z, features, {| open_files := open_files res; live_parsers := S (live_parsers res) |})
    end.
Proof.
  intros Hopen Hf. rewrite (loadFeature_stream fs m res p1 p2 fp Hopen Hf), run_stream_split, buffers_concat_all.
  destruct (xml_document _) as [evs []]; destruct res; unfold stream_result, fclose, XML_ParserFree;
    simpl; repeat f_equal; lia.
Qed.

End LoaderStreaming.

Section LoaderCoalescing.

Context {M : Type} `{StdMapSpec M} `{ExpatCoalescing}.

(** C18: for every parser with expat's own law, whose events are fixed
    only up to merging adjacent character data, loading a file without
    read fault, of any length, returns the status the parser gives the
    whole contents, releases or leaks exactly what C17 says, and leaves
    a map with the contents the callbacks make of the merged events:
    however expat splits the text of an element, the concatenation in
    [charDataHandler] restores it. *)
Theorem loadFeature_coalescing fs m res p1 p2 fp :
  sm_wf m -> open_feature_file fs p1 p2 = Some fp -> read_fault (f_file fp) = None ->
  let '(evs, st) := xml_document_merged (contents (f_file fp)) in
  let r := _loadFeature fs m res p1 p2 in
  r.1.1 = (match st with XML_STATUS_OK => 0%Z | XML_STATUS_ERROR => (-1)%Z end) /\
  sm_abs r.1.2 = sm_abs (pFeatures (handle_events {| curr_name := ""; pFeatures := m; depth := 0%Z |} evs)) /\
  r.2 = (match st with
         | XML_STATUS_OK => res
         | XML_STATUS_ERROR => {| open_files := open_files res; live_parsers := S (live_parsers res) |}
         end).
Proof.
  intros Hwf Hopen Hf. rewrite (loadFeature_stream fs m res p1 p2 fp Hopen Hf).
  pose proof (run_stream_coalesce
    (full_buffers (String.length (contents (f_file fp)) / BUFSIZ) 0 (contents (f_file fp)))
    (last_buffer (String.length (contents (f_file fp)) / BUFSIZ) 0 (contents (f_file fp)))) as Hlaw.
  rewrite buffers_concat_all in Hlaw. destruct (run_stream _ _ _) as [evs st].
  rewrite <- Hlaw. cbn zeta.
  assert (Habs := f_equal snd (handle_events_coalesce {| curr_name := ""; pFeatures := m; depth := 0%Z |} evs Hwf)).
  cbn in Habs. destruct st, res; unfold stream_result, fclose, XML_ParserFree; simpl;
    (split; [done|split; [done|repeat f_equal; lia]]).
Qed.

End LoaderCoalescing.

#[export] Hint Resolve loadFeature_wf : snf.

(** ** Concrete runs, with the sorted association list and [Expat.Lite] *)

Definition feature_file (doc : string) : file :=
  {| contents := doc; readable := true; read_fault := None |}.

Definition res0 : resources := {| open_files := 0; live_parsers := 0 |}.

(** The document of the spec's scenario has two top-level elements, so
    expat rejects it after the first one. *)
Definition two_roots_fs : filesystem :=
  {[ "/system/csc/feature.xml" := feature_file "<A>true</A><B>7</B>" ]}.

Lemma loadFeature_keeps_partial_entries_witness :
  _loadFeature (M := SortedAssoc.t) two_roots_fs [] res0 (Some "/system/csc/feature.xml") None =
    ((-1)%Z, [("A", "true")], {| open_files := 0; live_parsers := 1 |}).
Proof.
  erewrite loadFeature_keeps_partial_entries; [|reflexivity..].
  vm_compute. reflexivity.
Defined.

Definition root_text_fs : filesystem :=
  {[ "/system/csc/feature.xml" := feature_file "<FeatureSet>
<A>true</A>
</FeatureSet>" ]}.

(** The root element's leading newline is stored under its name. *)
Lemma loadFeature_single_buffer_witness :
  _loadFeature (M := SortedAssoc.t) root_text_fs [] res0 (Some "/system/csc/feature.xml") None =
    (0%Z, [("A", "true"); ("FeatureSet", "
")], res0).
Proof.
  erewrite loadFeature_single_buffer; [|reflexivity|vm_compute; lia|reflexivity|reflexivity].
  vm_compute. reflexivity.
Defined.

Lemma loadFeature_fallback_witness :
  _loadFeature (M := SortedAssoc.t) root_text_fs [] res0 (Some "/data/omc/others.xml") (Some "/system/csc/feature.xml") =
    _loadFeature (M := SortedAssoc.t) root_text_fs [] res0 None (Some "/system/csc/feature.xml").
Proof. rewrite loadFeature_fallback. reflexivity. Defined.

(** 150 elements with the same tag: 1207 bytes, two buffers, and the
    texts concatenate. *)
Definition repeated_doc : string := "<R>" ++ concat_frags (List.repeat "<A>x</A>"%string 150) ++ "</R>".

Definition repeated_fp : FILE := {| f_file := feature_file repeated_doc; f_pos := 0; f_error := false |}.

Lemma loadFeature_streaming_witness :
  BUFSIZ < String.length repeated_doc /\
  _loadFeature (M := SortedAssoc.t) {[ "/system/csc/feature.xml" := feature_file repeated_doc ]} [] res0
    (Some "/system/csc/feature.xml") None =
    (0%Z, [("A", concat_frags (List.repeat "x"%string 150))], res0).
Proof.
  split; [vm_compute; lia|].
  rewrite (loadFeature_streaming (M := SortedAssoc.t) _ [] res0 _ None repeated_fp); [|reflexivity..].
  vm_compute. reflexivity.
Defined.

Lemma parse_loop_terminates_witness :
  exists r, parse_loop (M := SortedAssoc.t) (load_fuel {| f_file := feature_file "<A>1</A>"; f_pos := 0; f_error := false |})
              XML_ParserCreate {| curr_name := ""; pFeatures := []; depth := 0%Z |}
              {| f_file := feature_file "<A>1</A>"; f_pos := 0; f_error := false |} res0 = Some r.
Proof. apply parse_loop_terminates. Defined.

Lemma loadFeature_resources_witness :
  let '(v, _, res') := _loadFeature (M := SortedAssoc.t) two_roots_fs [] res0 (Some "/system/csc/feature.xml") None in
  (v = 0%Z /\ res' = res0) \/
  (v = (-1)%Z /\ open_files res' = open_files res0 /\ live_parsers res' = S (live_parsers res0)).
Proof. apply loadFeature_resources. Defined.

Lemma loadFeature_coalescing_witness :
  let '(evs, st) := xml_document_merged (contents (f_file repeated_fp)) in
  let r := _loadFeature (M := SortedAssoc.t) {[ "/system/csc/feature.xml" := feature_file repeated_doc ]} [] res0
             (Some "/system/csc/feature.xml") None in
  r.1.1 = (match st with XML_STATUS_OK => 0%Z | XML_STATUS_ERROR => (-1)%Z end) /\
  sm_abs r.1.2 = sm_abs (pFeatures (handle_events {| curr_name := ""; pFeatures := []; depth := 0%Z |} evs)) /\
  r.2 = (match st with
         | XML_STATUS_OK => res0
         | XML_STATUS_ERROR => {| open_files := open_files res0; live_parsers := S (live_parsers res0) |}
         end).
Proof. apply loadFeature_coalescing; [concrete_wf|reflexivity|reflexivity]. Defined.
