(* ===== verification/Store.v ===== *)
(** The class [SecNativeFeature]: its constructor (the two-stage choice
    of the feature file), [getInstance], the six accessors and the
    destructor, on an explicit process state.

    The process state holds what the class touches outside itself: the
    file system, the resource counters, the log of [ALOGW] messages,
    and the static pointer [_instance], with [None] standing for NULL.
    C++ overloads get distinct names: the two-argument accessors are
    [getEnableStatus_default], [getString_default] and
    [getInteger_default]. A client reaches the accessors only through
    [getInstance()], so one API call is [getInstance] followed by the
    accessor ([api_step]). [reachable] is the set of states a process
    reaches by any sequence of calls. *)

From S2P Require Import Prelude StdMap Atoi Expat Handlers Loader.

Definition OMC_MPS_FEATURE_XML : string := "/data/omc/others.xml".
Definition FEATURE_XML : string := "/system/csc/feature.xml".
Definition MPS_FEATURE_XML : string := "/system/csc/others.xml".

(** From [SecNativeFeatureTagAll.h], which is not part of the sources;
    the value is the one the spec gives. *)
Definition TAG_CSCFEATURE_RIL_CONFIGRILVERSION : string := "CSCFEATURE_RIL_CONFIGRILVERSION".

Definition FEATURE_NOT_FOUND_MSG : string := "SecNativeFeature: Feature file not found".

(** [access(path, R_OK) == 0] *)
Definition access_R_OK (fs : filesystem) (path : string) : bool :=
  match fs !! path with Some f => readable f | None => false end.

Section Store.

Local Open Scope snf_scope.

Context {M : Type} `{StdMapSpec M} `{ExpatParser}.

Record SecNativeFeature := { _features : M }.

Record process := {
  p_fs : filesystem;
  p_res : resources;
  p_log : list string;
  _instance : option SecNativeFeature
}.

(** [SecNativeFeature::SecNativeFeature()] *)
Definition SecNativeFeature_ctor (p : process) : SecNativeFeature * process :=
  let load_result := (-1)%Z in
  let features := sm_empty in
  let '(load_result, features, res) :=
    if access_R_OK (p_fs p) OMC_MPS_FEATURE_XML
    then _loadFeature (p_fs p) features (p_res p) None (Some OMC_MPS_FEATURE_XML)
    else (load_result, features, p_res p) in
  let '(load_result, features, res) :=
    if (load_result =? -1)%Z
    then _loadFeature (p_fs p) features res (Some FEATURE_XML) (Some MPS_FEATURE_XML)
    else (load_result, features, res) in
  let log := if (load_result =? -1)%Z then p_log p ++ [FEATURE_NOT_FOUND_MSG] else p_log p in
  ({| _features := features |},
   {| p_fs := p_fs p; p_res := res; p_log := log; _instance := _instance p |}).

(** [SecNativeFeature::getInstance()] *)
Definition getInstance (p : process) : SecNativeFeature * process :=
  match _instance p with
  | Some self => (self, p)
  | None =>
      let '(self, p) := SecNativeFeature_ctor p in
      (self, {| p_fs := p_fs p; p_res := p_res p; p_log := p_log p; _instance := Some self |})
  end.

Definition is_true_literal (v : string) : bool := (v ==s "true") || (v ==s "TRUE").

(** [getEnableStatus(tag)] *)
Definition getEnableStatus (self : SecNativeFeature) (tag : string) : bool :=
  match sm_find tag (_features self) with
  | None => false
  | Some v => if is_true_literal v then true else false
  end.

(** [getEnableStatus(tag, defaultValue)] *)
Definition getEnableStatus_default (self : SecNativeFeature) (tag : string) (defaultValue : bool) : bool :=
  match sm_find tag (_features self) with
  | None => defaultValue
  | Some v => if is_true_literal v then true else defaultValue
  end.

(** [getString(tag)] *)
Definition getString (self : SecNativeFeature) (tag : string) : string :=
  match sm_find tag (_features self) with
  | None => ""
  | Some v => v
  end.

(** [getString(tag, defaultValue)] *)
Definition getString_default (self : SecNativeFeature) (tag : string) (defaultValue : string) : string :=
  match sm_find tag (_features self) with
  | None => defaultValue
  | Some v => v
  end.

(** [getInteger(tag)] *)
Definition getInteger (self : SecNativeFeature) (tag : string) : Z :=
  match sm_find tag (_features self) with
  | None => if tag ==s TAG_CSCFEATURE_RIL_CONFIGRILVERSION then 11%Z else (-1)%Z
  | Some raw_value => atoi raw_value
  end.

(** [getInteger(tag, defaultValue)] *)
Definition getInteger_default (self : SecNativeFeature) (tag : string) (defaultValue : Z) : Z :=
  match sm_find tag (_features self) with
  | None => if tag ==s TAG_CSCFEATURE_RIL_CONFIGRILVERSION then 11%Z else defaultValue
  | Some raw_value => atoi raw_value
  end.

(** [SecNativeFeature::~SecNativeFeature()]: [delete _instance] runs the
    destructor of the object [_instance] points to. [_instance] is not
    cleared first, so that destructor runs [delete _instance] again.
    [None] means the fuel ran out before the destructor returned. *)
Fixpoint destroy (fuel : nat) (p : process) : option process :=
  match fuel with
  | O => None
  | S f =>
      match _instance p with
      | None => Some p
      | Some _ => destroy f p
      end
  end.

Inductive api_call :=
  | CallGetEnableStatus (tag : string)
  | CallGetEnableStatusDefault (tag : string) (defaultValue : bool)
  | CallGetString (tag : string)
  | CallGetStringDefault (tag : string) (defaultValue : string)
  | CallGetInteger (tag : string)
  | CallGetIntegerDefault (tag : string) (defaultValue : Z).

Inductive api_result := RBool (b : bool) | RString (s : string) | RInt (z : Z).

Definition accessor (self : SecNativeFeature) (c : api_call) : api_result :=
  match c with
  | CallGetEnableStatus tag => RBool (getEnableStatus self tag)
  | CallGetEnableStatusDefault tag d => RBool (getEnableStatus_default self tag d)
  | CallGetString tag => RString (getString self tag)
  | CallGetStringDefault tag d => RString (getString_default self tag d)
  | CallGetInteger tag => RInt (getInteger self tag)
  | CallGetIntegerDefault tag d => RInt (getInteger_default self tag d)
  end.

(** [SecNativeFeature::getInstance()->...] *)
Definition api_step (p : process) (c : api_call) : api_result * process :=
  let '(self, p) := getInstance p in (accessor self c, p).

Inductive reachable (p0 : process) : process -> Prop :=
  | reach_init : reachable p0 p0
  | reach_step p c : reachable p0 p -> reachable p0 (api_step p c).2.


(** ** Lemmas *)

Lemma ctor_process p :
  p_fs (SecNativeFeature_ctor p).2 = p_fs p /\ _instance (SecNativeFeature_ctor p).2 = _instance p.
Proof.
  unfold SecNativeFeature_ctor.
  destruct (if access_R_OK _ _ then _ else _) as [[v1 m1] r1].
  destruct (if (v1 =? -1)%Z then _ else _) as [[v2 m2] r2]. done.
Qed.

Lemma ctor_wf p : sm_wf (_features (SecNativeFeature_ctor p).1).
Proof.
  unfold SecNativeFeature_ctor.
  destruct (if access_R_OK _ _ then _ else _) as [[v1 m1] r1] eqn:E1.
  assert (Hw1 : sm_wf m1).
  { destruct (access_R_OK _ _); [|injection E1 as <- <- <-; apply sm_wf_empty].
    change m1 with ((v1, m1, r1).1.2). rewrite <- E1. eauto using sm_wf_empty with snf. }
  destruct (if (v1 =? -1)%Z then _ else _) as [[v2 m2] r2] eqn:E2. simpl.
  destruct (v1 =? -1)%Z; [|by injection E2 as <- <- <-].
  change m2 with ((v2, m2, r2).1.2). rewrite <- E2. eauto with snf.
Qed.

(** The object the constructor builds depends on the files alone, not
    on the resource counters or the log of the process it runs in. *)
Lemma ctor_features_fs p q : p_fs p = p_fs q -> (SecNativeFeature_ctor p).1 = (SecNativeFeature_ctor q).1.
Proof.
  intros Hfs. unfold SecNativeFeature_ctor. cbv zeta. rewrite Hfs.
  set (X := if access_R_OK (p_fs q) OMC_MPS_FEATURE_XML
            then _loadFeature (p_fs q) sm_empty (p_res p) None (Some OMC_MPS_FEATURE_XML)
            else ((-1)%Z, sm_empty, p_res p)).
  set (X' := if access_R_OK (p_fs q) OMC_MPS_FEATURE_XML
             then _loadFeature (p_fs q) sm_empty (p_res q) None (Some OMC_MPS_FEATURE_XML)
             else ((-1)%Z, sm_empty, p_res q)).
  assert (E1 : X.1 = X'.1).
  { subst X X'. destruct (access_R_OK _ _); [apply loadFeature_res_indep|done]. }
  destruct X as [[v m] r], X' as [[v' m'] r']. simpl in E1. injection E1 as <- <-.
  destruct (v =? -1)%Z; [|done].
  generalize (loadFeature_res_indep (p_fs q) m r r' (Some FEATURE_XML) (Some MPS_FEATURE_XML)).
  destruct (_loadFeature _ _ r _ _) as [[v2 m2] r2], (_loadFeature _ _ r' _ _) as [[v2' m2'] r2'].
  intros E2. by simplify_eq/=.
Qed.

(** The state after the first [getInstance] of a process [p0]. *)
Definition initialized (p0 : process) : process :=
  (getInstance p0).2.

Lemma getInstance_fresh p0 :
  _instance p0 = None ->
  getInstance p0 = ((SecNativeFeature_ctor p0).1, initialized p0) /\
  _instance (initialized p0) = Some (SecNativeFeature_ctor p0).1.
Proof.
  intros Hn. unfold initialized, getInstance. rewrite Hn.
  by destruct (SecNativeFeature_ctor p0).
Qed.

Lemma api_step_initialized p0 p c :
  _instance p = Some (SecNativeFeature_ctor p0).1 ->
  api_step p c = (accessor (SecNativeFeature_ctor p0).1 c, p).
Proof. intros Hi. unfold api_step, getInstance. by rewrite Hi. Qed.

(** The reachable states: the start, and the one state after the first
    call. *)
Lemma reachable_cases p0 p :
  _instance p0 = None -> reachable p0 p -> p = p0 \/ p = initialized p0.
Proof.
  intros Hn. induction 1 as [|p c Hr IH]; [by left|right].
  destruct (getInstance_fresh p0 Hn) as [Hg Hi].
  destruct IH as [ -> | -> ].
  - unfold api_step. by rewrite Hg.
  - by rewrite (api_step_initialized p0).
Qed.

(** A call in a reachable state answers from the map the constructor
    builds from the starting process. *)
Lemma reachable_answers p0 p c :
  _instance p0 = None -> reachable p0 p ->
  (api_step p c).1 = accessor (SecNativeFeature_ctor p0).1 c.
Proof.
  intros Hn Hr. destruct (getInstance_fresh p0 Hn) as [Hg Hi].
  destruct (reachable_cases p0 p Hn Hr) as [->| ->].
  - unfold api_step. by rewrite Hg.
  - by rewrite (api_step_initialized p0).
Qed.

(** ** Properties of the store *)

(** C1: [getEnableStatus(tag)] is true exactly when the tag is
    present with the value "true" or "TRUE"; any other value, "True"
    or "1" included, and an absent tag give false. *)
Theorem getEnableStatus_spec self tag :
  getEnableStatus self tag = true <->
  sm_abs (_features self) !! tag = Some "true" \/ sm_abs (_features self) !! tag = Some "TRUE".
Proof.
  unfold getEnableStatus, is_true_literal. rewrite sm_find_abs.
  destruct (sm_abs (_features self) !! tag) as [v|]; [|naive_solver].
  destruct (String.eqb_spec v "true"), (String.eqb_spec v "TRUE"); naive_solver.
Qed.

(** C2: [getEnableStatus(tag, defaultValue)] is [getEnableStatus(tag)]
    or the default: the default is returned also when the tag is present
    with a value other than "true"/"TRUE", so an explicit "false" in the
    file cannot turn off a feature whose default is true. *)
Theorem getEnableStatus_default_spec self tag d :
  getEnableStatus_default self tag d = getEnableStatus self tag || d.
Proof.
  unfold getEnableStatus_default, getEnableStatus.
  destruct (sm_find tag _); [|done]. by destruct (is_true_literal _).
Qed.

(** C5: [getString] returns the stored text verbatim when the tag is
    present, and otherwise the default, which is the empty string for
    the one-argument overload. *)
Theorem getString_spec self tag d :
  getString_default self tag d = default d (sm_abs (_features self) !! tag) /\
  getString self tag = getString_default self tag "".
Proof.
  unfold getString_default, getString. rewrite sm_find_abs.
  by destruct (sm_abs (_features self) !! tag).
Qed.

(** C3: for a present tag both [getInteger] overloads return [atoi]
    of the stored text; for an absent tag they return 11 for
    [TAG_CSCFEATURE_RIL_CONFIGRILVERSION] and otherwise the default,
    which is -1 for the one-argument overload. *)
Theorem getInteger_spec self tag d :
  getInteger self tag = getInteger_default self tag (-1) /\
  getInteger_default self tag d =
    match sm_abs (_features self) !! tag with
    | Some v => atoi v
    | None => if String.eqb tag TAG_CSCFEATURE_RIL_CONFIGRILVERSION then 11%Z else d
    end.
Proof.
  unfold getInteger, getInteger_default. rewrite sm_find_abs.
  by destruct (sm_abs (_features self) !! tag).
Qed.


(** C14: the singleton is built once. From a process whose
    [_instance] is NULL, every sequence of calls leaves the process
    either untouched or in the one state that the first [getInstance]
    produces: the files are read once, and the map never changes
    afterwards. *)
Theorem getInstance_once p0 p :
  _instance p0 = None -> reachable p0 p ->
  p = p0 \/
  (p = initialized p0 /\ _instance p = Some (SecNativeFeature_ctor p0).1 /\
   p_res p = p_res (SecNativeFeature_ctor p0).2 /\ p_log p = p_log (SecNativeFeature_ctor p0).2).
Proof.
  intros Hn Hr. destruct (reachable_cases p0 p Hn Hr) as [->| ->]; [by left|right].
  destruct (getInstance_fresh p0 Hn) as [_ Hi]. split; [done|]. split; [done|].
  unfold initialized, getInstance. rewrite Hn. by destruct (SecNativeFeature_ctor p0).
Qed.

(** C15: every call after initialisation answers from the map the
    constructor built: the answer of a call is the accessor applied to
    that one map. *)
Theorem api_step_answers_from_loaded_map p0 p c :
  _instance p0 = None -> reachable p0 p ->
  (api_step p c).1 = accessor (SecNativeFeature_ctor p0).1 c.
Proof. apply reachable_answers. Qed.

(** In every reachable state the singleton's map satisfies the
    representation invariant of [std::map] (sorted, distinct keys). *)
Theorem reachable_features_wf p0 p self :
  _instance p0 = None -> reachable p0 p -> _instance p = Some self -> sm_wf (_features self).
Proof.
  intros Hn Hr Hs. destruct (getInstance_fresh p0 Hn) as [_ Hi].
  destruct (reachable_cases p0 p Hn Hr) as [->| ->]; [congruence|].
  rewrite Hi in Hs. injection Hs as <-. apply ctor_wf.
Qed.

(** C36: the destructor returns only when [_instance] is NULL. When
    it is set, [delete _instance] re-enters the destructor on the same
    pointer, so no amount of fuel (stack) lets it return. *)
Theorem destroy_diverges fuel p :
  destroy (S fuel) p = match _instance p with Some _ => None | None => Some p end.
Proof.
  destruct (_instance p) eqn:Hi.
  - induction fuel as [|f IH]; [simpl; by rewrite Hi|].
    change (destroy (S (S f)) p) with
      (match _instance p with None => Some p | Some _ => destroy (S f) p end).
    by rewrite Hi.
  - simpl. by rewrite Hi.
Qed.

(** C12: when the override file [/data/omc/others.xml] is readable
    and loads, the store holds its entries alone, the system files are
    not opened, and nothing is logged. *)
Theorem ctor_prefers_omc p m r :
  access_R_OK (p_fs p) OMC_MPS_FEATURE_XML = true ->
  _loadFeature (p_fs p) sm_empty (p_res p) None (Some OMC_MPS_FEATURE_XML) = (0%Z, m, r) ->
  SecNativeFeature_ctor p =
    ({| _features := m |}, {| p_fs := p_fs p; p_res := r; p_log := p_log p; _instance := _instance p |}).
Proof. intros Ha Hl. unfold SecNativeFeature_ctor. by rewrite Ha, Hl. Qed.

(** C13: when the override file is readable but fails to load, the
    system files are loaded into the map the failed attempt left, not
    into an empty one: entries of the rejected override file survive. *)
Theorem ctor_fallback_keeps_partial p m1 r1 :
  access_R_OK (p_fs p) OMC_MPS_FEATURE_XML = true ->
  _loadFeature (p_fs p) sm_empty (p_res p) None (Some OMC_MPS_FEATURE_XML) = ((-1)%Z, m1, r1) ->
  _features (SecNativeFeature_ctor p).1 =
    (_loadFeature (p_fs p) m1 r1 (Some FEATURE_XML) (Some MPS_FEATURE_XML)).1.2.
Proof.
  intros Ha Hl. unfold SecNativeFeature_ctor. rewrite Ha, Hl. simpl.
  clear Hl. destruct (_loadFeature _ _ _ _ _) as [[v m] r]. reflexivity.
Qed.

(** C22: with no candidate file at all the constructor still
    succeeds: the map is empty, one warning is logged, and the two
    expat parsers it created are both leaked. *)
Theorem ctor_no_feature_file p :
  access_R_OK (p_fs p) OMC_MPS_FEATURE_XML = false ->
  p_fs p !! FEATURE_XML = None -> p_fs p !! MPS_FEATURE_XML = None ->
  sm_abs (_features (SecNativeFeature_ctor p).1) = ∅ /\
  p_log (SecNativeFeature_ctor p).2 = p_log p ++ [FEATURE_NOT_FOUND_MSG] /\
  p_res (SecNativeFeature_ctor p).2 =
    {| open_files := open_files (p_res p); live_parsers := S (live_parsers (p_res p)) |}.
Proof.
  intros Ha Hf1 Hf2. unfold SecNativeFeature_ctor. rewrite Ha. simpl.
  unfold _loadFeature, open_feature_file, fopen. rewrite Hf1, Hf2. simpl.
  split; [apply sm_abs_empty|done].
Qed.

(** C24: a stored value that, after white space and an optional
    sign, does not start with a digit reads as 0 through both
    [getInteger] overloads, whatever the default: the value is
    present, so the default is not used, and [atoi] of "true" or "abc"
    is 0. A feature stored as text reads as the integer 0, not as the
    caller's default. *)
Theorem getInteger_non_numeric self tag v d :
  sm_abs (_features self) !! tag = Some v ->
  starts_with_digit (sign_split (skip_space v)).2 = false ->
  getInteger self tag = 0%Z /\ getInteger_default self tag d = 0%Z.
Proof.
  intros Hv Hd. unfold getInteger, getInteger_default. rewrite sm_find_abs, Hv.
  split; by apply atoi_non_numeric.
Qed.

(** C25: a stored value whose digits exceed [LONG_MAX] reads through
    both [getInteger] overloads as [INT_MAX] when positive and as
    [INT_MIN] when negative: [getInteger] passes the text to [atoi]
    without a range check, and [atoi] saturates rather than wraps, so
    an out-of-range feature value is not reported as an error. *)
Theorem getInteger_saturates self tag v neg r d :
  sm_abs (_features self) !! tag = Some v ->
  sign_split (skip_space v) = (neg, r) -> (LONG_MAX < digits_value 0 r)%Z ->
  getInteger self tag = (if neg then INT_MIN else INT_MAX) /\
  getInteger_default self tag d = (if neg then INT_MIN else INT_MAX).
Proof.
  intros Hv Hs Hr. unfold getInteger, getInteger_default. rewrite sm_find_abs, Hv.
  split; by apply (atoi_saturates v neg r).
Qed.

End Store.

(** ** Concrete runs, with the sorted association list and [Expat.Lite] *)

Definition process0 (fs : filesystem) : @process SortedAssoc.t :=
  {| p_fs := fs; p_res := res0; p_log := []; _instance := None |}.

Definition good_fs : filesystem :=
  {[ FEATURE_XML := feature_file "<FeatureSet><A>true</A><B>7</B></FeatureSet>" ]}.


Lemma getInstance_once_witness :
  let p1 := (api_step (process0 good_fs) (CallGetString "A")).2 in
  p1 = process0 good_fs \/
  (p1 = initialized (process0 good_fs) /\
   _instance p1 = Some (SecNativeFeature_ctor (process0 good_fs)).1 /\
   p_res p1 = p_res (SecNativeFeature_ctor (process0 good_fs)).2 /\
   p_log p1 = p_log (SecNativeFeature_ctor (process0 good_fs)).2).
Proof. apply getInstance_once; [reflexivity | apply reach_step, reach_init]. Defined.

Lemma api_step_answers_from_loaded_map_witness :
  let p1 := (api_step (process0 good_fs) (CallGetString "A")).2 in
  (api_step p1 (CallGetInteger "B")).1 = accessor (SecNativeFeature_ctor (process0 good_fs)).1 (CallGetInteger "B").
Proof. apply api_step_answers_from_loaded_map; [reflexivity | apply reach_step, reach_init]. Defined.

Definition omc_fs (omc : string) : filesystem :=
  {[ OMC_MPS_FEATURE_XML := feature_file omc; FEATURE_XML := feature_file "<F><A>false</A><C>1</C></F>" ]}.

Lemma ctor_prefers_omc_witness :
  SecNativeFeature_ctor (process0 (omc_fs "<F><A>true</A></F>")) =
    ({| _features := [("A", "true")] |},
     {| p_fs := omc_fs "<F><A>true</A></F>"; p_res := res0; p_log := []; _instance := None |}).
Proof. apply ctor_prefers_omc; reflexivity. Defined.

(** The override file is rejected after its first element: its "A"
    survives, and the value of the system file is appended to it. *)
Lemma ctor_fallback_keeps_partial_witness :
  _features (SecNativeFeature_ctor (process0 (omc_fs "<A>true</A><B/>"))).1 = [("A", "truefalse"); ("C", "1")].
Proof.
  rewrite (ctor_fallback_keeps_partial _ [("A", "true")] {| open_files := 0; live_parsers := 1 |});
    [vm_compute; reflexivity | reflexivity | vm_compute; reflexivity].
Defined.

Lemma ctor_no_feature_file_witness :
  sm_abs (_features (SecNativeFeature_ctor (process0 ∅)).1) = ∅ /\
  p_log (SecNativeFeature_ctor (process0 ∅)).2 = [FEATURE_NOT_FOUND_MSG] /\
  p_res (SecNativeFeature_ctor (process0 ∅)).2 = {| open_files := 0; live_parsers := 1 |}.
Proof. apply ctor_no_feature_file; reflexivity. Defined.

Lemma getEnableStatus_spec_witness :
  getEnableStatus (M := SortedAssoc.t) {| _features := [("A", "TRUE")] |} "A" = true.
Proof. apply getEnableStatus_spec. right. reflexivity. Defined.

(** "false" in the file, default true: the feature reads as enabled. *)
Lemma getEnableStatus_default_spec_witness :
  getEnableStatus_default (M := SortedAssoc.t) {| _features := [("A", "false")] |} "A" true = true.
Proof. rewrite getEnableStatus_default_spec. apply orb_true_r. Defined.

Lemma getInteger_spec_witness :
  getInteger (M := SortedAssoc.t) {| _features := [("B", "42abc")] |} "B" = 42%Z /\
  getInteger (M := SortedAssoc.t) {| _features := [] |} "X" = (-1)%Z.
Proof.
  split; rewrite (proj1 (getInteger_spec _ _ 0%Z)), (proj2 (getInteger_spec _ _ (-1)%Z));
    vm_compute; reflexivity.
Defined.

Lemma getString_spec_witness :
  getString_default (M := SortedAssoc.t) {| _features := [("A", "v")] |} "A" "d" = "v" /\
  getString (M := SortedAssoc.t) {| _features := [] |} "A" = "".
Proof.
  split.
  - rewrite (proj1 (getString_spec _ _ "d")). reflexivity.
  - rewrite (proj2 (getString_spec _ _ "d")), (proj1 (getString_spec _ _ "")). reflexivity.
Defined.

Lemma destroy_diverges_witness :
  destroy 100 (initialized (process0 good_fs)) = None /\ destroy 1 (process0 good_fs) = Some (process0 good_fs).
Proof. split; rewrite destroy_diverges; reflexivity. Defined.

Lemma getInteger_non_numeric_witness :
  getInteger (M := SortedAssoc.t) {| _features := [("A", "true")] |} "A" = 0%Z /\
  getInteger_default (M := SortedAssoc.t) {| _features := [("A", "true")] |} "A" 5 = 0%Z.
Proof. apply (getInteger_non_numeric _ "A" "true" 5); reflexivity. Defined.

Lemma getInteger_saturates_witness :
  getInteger (M := SortedAssoc.t) {| _features := [("N", "-99999999999")] |} "N" = INT_MIN /\
  getInteger_default (M := SortedAssoc.t) {| _features := [("N", "-99999999999")] |} "N" 5 = INT_MIN.
Proof.
  apply (getInteger_saturates _ "N" "-99999999999" true "99999999999" 5);
    [reflexivity | reflexivity | vm_compute; reflexivity].
Defined.
