(* ===== verification/EndToEnd.v ===== *)
(** The components composed: [_loadFeature] driving [Expat.Lite], and
    the constructor and accessors on a feature file.

    [Loader.v] proves its theorems for every [ExpatParser]: a read
    fault fails the load after the callbacks of the buffers before it
    (C19), and a file of any length loads as its whole contents for
    every [ExpatStreaming] parser (C17). Here the parser is
    [Expat.Lite], so that statements hold for every document and not
    only for evaluated examples. [Lite] keeps every buffer and parses
    at the final one, so on a read fault [_features] is unchanged.

    Then the constructor loads [feature_doc root es] from
    [/system/csc/feature.xml] ([LiteDoc.v]). [getString] returns each
    entry's text, for every text: the callbacks concatenate the
    fragments the parser splits it into. [getInteger] returns every
    [int] printed in decimal. A file with two top-level elements, the
    spec's own scenario document, is rejected after the first one
    (C23). *)

From S2P Require Import Prelude StdMap Atoi Expat LiteDoc Handlers Loader Store.

Section EndToEnd.

Context {M : Type} `{StdMapSpec M}.

(** With the [Lite] parser, loading a file without read fault returns
    what [Lite.parse_document] makes of its whole contents. *)
Lemma loadFeature_lite fs m res p1 p2 fp :
  open_feature_file fs p1 p2 = Some fp -> read_fault (f_file fp) = None ->
  _loadFeature fs m res p1 p2 =
    let '(evs, ok) := Lite.parse_document (contents (f_file fp)) in
    let features := pFeatures (handle_events {| curr_name := ""; pFeatures := m; depth := 0%Z |} evs) in
    if ok then (0%Z, features, res)
    else ((-1)%Z, features, {| open_files := open_files res; live_parsers := S (live_parsers res) |}).
Proof.
  intros Hopen Hf. rewrite (loadFeature_stream fs m res p1 p2 fp Hopen Hf), lite_run_stream by done.
  cbn [Lite.lite_buf XML_ParserCreate lite_expat]. rewrite string_app_nil_l, buffers_concat_all.
  destruct (Lite.parse_document _) as [evs []]; destruct res; unfold stream_result, fclose, XML_ParserFree;
    simpl; repeat f_equal; lia.
Qed.

(** ** The callbacks on a feature document *)

(** The entries a feature document stores: an empty element fires no
    character data, so it stores nothing. *)
Definition stored_entries (es : list (string * string)) : list (string * string) :=
  filter (fun e => e.2 <> ""%string) es.

Lemma handle_element d k v :
  sm_wf (pFeatures d) -> k <> ""%string ->
  sm_abs (pFeatures (handle_events d (element_events k v))) =
    if String.eqb v "" then sm_abs (pFeatures d)
    else <[k := (stored (pFeatures d) k ++ v)%string]> (sm_abs (pFeatures d)).
Proof.
  intros Hwf Hk. unfold element_events. destruct (String.eqb_spec v "") as [->|Hv]; [done|].
  rewrite !handle_events_app. cbn [handle_events fold_left handle].
  rewrite endElement_pFeatures, chars_abs, startElement_curr_name, startElement_pFeatures.
  - rewrite text_frags_concat. cbn [rev app]. by rewrite string_of_list_ascii_of_string.
  - done.
  - by rewrite startElement_curr_name.
  - intros Hnil. apply text_frags_nil in Hnil as [Hv' _].
    by apply list_ascii_empty in Hv'.
Qed.

Lemma handle_element_wf d k v :
  sm_wf (pFeatures d) -> sm_wf (pFeatures (handle_events d (element_events k v))).
Proof. eauto with snf. Qed.

Lemma valid_name_nonempty k : valid_name k = true -> k <> ""%string.
Proof. unfold valid_name. by destruct k. Qed.

(** The elements of a document with distinct tags, none of them
    stored yet: each non-empty element adds its entry. *)
Lemma handle_elements d es :
  sm_wf (pFeatures d) -> Forall (fun e => valid_entry e = true) es -> NoDup es.*1 ->
  (forall k, k ∈ es.*1 -> sm_abs (pFeatures d) !! k = None) ->
  sm_abs (pFeatures (handle_events d (flat_map (fun '(k, v) => element_events k v) es))) =
    list_to_map (stored_entries es) ∪ sm_abs (pFeatures d).
Proof.
  revert d. induction es as [|[k v] es IH]; intros d Hwf Hes Hnd Hfresh.
  { simpl. by rewrite map_empty_union. }
  inversion Hes as [|? ? Hkv Hes']; subst. inversion Hnd as [|? ? Hk Hnd']; subst.
  assert (Hkne : k <> ""%string) by (by apply valid_name_nonempty).
  cbn [flat_map]. rewrite handle_events_app.
  rewrite IH; [|by apply handle_element_wf|done|done|].
  2: { intros k' Hk'. rewrite handle_element by done.
       destruct (String.eqb v ""); [apply Hfresh; by right|].
       rewrite lookup_insert_ne by (intros ->; contradiction). apply Hfresh. by right. }
  rewrite handle_element by done.
  unfold stored_entries. rewrite filter_cons. cbn [fst snd].
  unfold stored. rewrite Hfresh by (by left). simpl.
  destruct (String.eqb_spec v ""); [by rewrite decide_False by tauto|].
  rewrite decide_True by done. simpl. rewrite <-insert_union_l, insert_union_r; [done|].
  apply not_elem_of_list_to_map_1. intros Hin. apply Hk.
  unfold stored_entries in Hin. apply list_elem_of_fmap in Hin as ([k' v'] & -> & Hin).
  apply list_elem_of_filter in Hin as [_ Hin]. apply list_elem_of_fmap. by exists (k', v').
Qed.

Lemma handle_feature_doc d root es :
  sm_wf (pFeatures d) -> Forall (fun e => valid_entry e = true) es -> NoDup es.*1 ->
  (forall k, k ∈ es.*1 -> sm_abs (pFeatures d) !! k = None) ->
  sm_abs (pFeatures (handle_events d (feature_events root es))) =
    list_to_map (stored_entries es) ∪ sm_abs (pFeatures d).
Proof.
  intros Hwf Hes Hnd Hfresh. unfold feature_events. rewrite !handle_events_app.
  cbn [handle_events fold_left handle]. rewrite endElement_pFeatures.
  by rewrite handle_elements, startElement_pFeatures.
Qed.

(** A process set up with a feature document: the override file is
    not readable, [/system/csc/feature.xml] holds [feature_doc root es],
    the names are plain names, and the tags are distinct. *)
Definition loads_feature_doc (p : @process M) (root : string) (es : list (string * string)) : Prop :=
  access_R_OK (p_fs p) OMC_MPS_FEATURE_XML = false /\
  p_fs p !! FEATURE_XML = Some (feature_file (feature_doc root es)) /\
  valid_name root = true /\ Forall (fun e => valid_entry e = true) es /\ NoDup es.*1.

(** The lookup of a tag of the document in the stored entries. *)
Lemma stored_entries_lookup es k v :
  NoDup es.*1 -> (k, v) ∈ es ->
  (list_to_map (stored_entries es) : gmap string string) !! k = if String.eqb v "" then None else Some v.
Proof.
  intros Hnd Hin. assert (Hsub : NoDup (stored_entries es).*1).
  { eapply sublist_NoDup; [exact Hnd|]. apply fmap_sublist, sublist_filter. }
  destruct (String.eqb_spec v "") as [->|Hv].
  - apply not_elem_of_list_to_map_1. intros ([k' v'] & Heq & Hin')%list_elem_of_fmap.
    cbn in Heq. subst k'. apply list_elem_of_filter in Hin' as [Hv' Hin']. cbn in Hv'.
    pose proof (elem_of_list_to_map_1 _ _ _ Hnd Hin) as H1.
    pose proof (elem_of_list_to_map_1 _ _ _ Hnd Hin') as H2. congruence.
  - apply elem_of_list_to_map_1; [done|]. by apply list_elem_of_filter.
Qed.

(** The constructor on a file system whose override file is not
    readable and whose [/system/csc/feature.xml] is a feature
    document. *)
Lemma ctor_feature_doc p root es :
  loads_feature_doc p root es ->
  SecNativeFeature_ctor p =
    ({| _features := pFeatures (handle_events {| curr_name := ""; pFeatures := sm_empty; depth := 0%Z |}
                                (feature_events root es)) |},
     {| p_fs := p_fs p; p_res := p_res p; p_log := p_log p; _instance := _instance p |}).
Proof.
  intros (Hacc & Hfx & Hroot & Hes & Hnd). unfold SecNativeFeature_ctor. rewrite Hacc. cbn zeta iota.
  assert (Hopen : open_feature_file (p_fs p) (Some FEATURE_XML) (Some MPS_FEATURE_XML) =
                  Some {| f_file := feature_file (feature_doc root es); f_pos := 0; f_error := false |})
    by (unfold open_feature_file, fopen; by rewrite Hfx).
  rewrite (loadFeature_lite _ _ _ _ _ _ Hopen) by done. unfold feature_file. cbn [f_file contents].
  by rewrite feature_doc_parses.
Qed.

Lemma ctor_feature_doc_abs p root es :
  loads_feature_doc p root es ->
  sm_abs (_features (SecNativeFeature_ctor p).1) = list_to_map (stored_entries es).
Proof.
  intros Hl. rewrite (ctor_feature_doc p root es Hl). cbn [fst _features].
  destruct Hl as (_ & _ & _ & Hes & Hnd).
  rewrite handle_feature_doc; cbn [pFeatures]; [|apply sm_wf_empty|done..|].
  - by rewrite sm_abs_empty, map_union_empty.
  - intros k _. by rewrite sm_abs_empty.
Qed.

(** The constructor on a feature file with two top-level elements:
    the load of [/system/csc/feature.xml] fails after the first
    element, and [/system/csc/others.xml] is not tried because the
    first path opened. *)
Lemma ctor_two_roots p k1 v1 k2 v2 :
  access_R_OK (p_fs p) OMC_MPS_FEATURE_XML = false ->
  p_fs p !! FEATURE_XML = Some (feature_file (element k1 v1 ++ element k2 v2)) ->
  valid_name k1 = true -> valid_name k2 = true ->
  SecNativeFeature_ctor p =
    ({| _features := pFeatures (handle_events {| curr_name := ""; pFeatures := sm_empty; depth := 0%Z |}
                                (element_events k1 v1)) |},
     {| p_fs := p_fs p;
        p_res := {| open_files := open_files (p_res p); live_parsers := S (live_parsers (p_res p)) |};
        p_log := p_log p ++ [FEATURE_NOT_FOUND_MSG]; _instance := _instance p |}).
Proof.
  intros Hacc Hfx Hk1 Hk2. unfold SecNativeFeature_ctor. rewrite Hacc. cbn zeta iota.
  assert (Hopen : open_feature_file (p_fs p) (Some FEATURE_XML) (Some MPS_FEATURE_XML) =
                  Some {| f_file := feature_file (element k1 v1 ++ element k2 v2); f_pos := 0; f_error := false |})
    by (unfold open_feature_file, fopen; by rewrite Hfx).
  rewrite (loadFeature_lite _ _ _ _ _ _ Hopen) by done. unfold feature_file. cbn [f_file contents].
  by rewrite two_roots_parse.
Qed.

(** ** Properties of the composed store *)

(** C8: when the override file cannot be read and
    [/system/csc/feature.xml] holds a feature document with distinct
    tags, the constructor's map holds exactly the document's non-empty
    entries. An empty element stores nothing. The load succeeds, so no
    warning is logged and every resource is released. The document can
    be of any length. *)
Theorem ctor_loads_feature_doc p root es :
  loads_feature_doc p root es ->
  sm_abs (_features (SecNativeFeature_ctor p).1) = list_to_map (stored_entries es) /\
  p_res (SecNativeFeature_ctor p).2 = p_res p /\ p_log (SecNativeFeature_ctor p).2 = p_log p.
Proof.
  intros Hl. split; [by apply (ctor_feature_doc_abs p root es)|]. by rewrite (ctor_feature_doc p root es Hl).
Qed.

(** C6: [getString] returns the exact text a feature document gives
    a tag, whatever the text. This is the spec's round trip: markup
    characters written as entities and newlines reach the callbacks as
    separate fragments, and the concatenation in [charDataHandler]
    puts them back together. An empty element reads as the empty
    string, which is also what an absent tag gives. *)
Theorem getString_roundtrip p root es k v :
  loads_feature_doc p root es -> (k, v) ∈ es ->
  getString (SecNativeFeature_ctor p).1 k = v.
Proof.
  intros Hl Hin. unfold getString. rewrite sm_find_abs, (ctor_feature_doc_abs p root es Hl).
  destruct Hl as (_ & _ & _ & _ & Hnd). rewrite (stored_entries_lookup es k v) by done.
  by destruct (String.eqb_spec v "").
Qed.

(** C7: [getInteger] returns every [int] a feature document gives a
    tag in decimal: the composition of the loader, the callbacks, the
    map and [atoi]. This is the spec's "B is 7" for every value and
    every document. *)
Theorem getInteger_roundtrip p root es k n :
  loads_feature_doc p root es -> (k, dec_string n) ∈ es -> (INT_MIN <= n <= INT_MAX)%Z ->
  getInteger (SecNativeFeature_ctor p).1 k = n.
Proof.
  intros Hl Hin Hn. unfold getInteger. rewrite sm_find_abs, (ctor_feature_doc_abs p root es Hl).
  destruct Hl as (_ & _ & _ & _ & Hnd). rewrite (stored_entries_lookup es k (dec_string n)) by done.
  destruct (String.eqb_spec (dec_string n) "") as [Hd|_]; [by apply dec_string_nonempty in Hd|].
  rewrite <-(string_app_nil_r (dec_string n)). by apply atoi_dec_app.
Qed.

(** C23: the spec's scenario document [<A>true</A><B>7</B>], for
    every pair of distinct tags and every texts. The file has two
    top-level elements, so it is not well-formed XML: the parser
    rejects it at the second start tag, [_loadFeature] returns -1
    without trying [/system/csc/others.xml] (whatever that file
    holds), and the constructor logs the warning and leaks the parser.
    The map keeps the first element's entry only: the second tag reads
    as absent, where the spec expects its value. *)
Theorem two_roots_rejected p k1 v1 k2 v2 :
  access_R_OK (p_fs p) OMC_MPS_FEATURE_XML = false ->
  p_fs p !! FEATURE_XML = Some (feature_file (element k1 v1 ++ element k2 v2)) ->
  valid_name k1 = true -> valid_name k2 = true -> k1 <> k2 ->
  sm_abs (_features (SecNativeFeature_ctor p).1) = list_to_map (stored_entries [(k1, v1)]) /\
  sm_find k2 (_features (SecNativeFeature_ctor p).1) = None /\
  p_log (SecNativeFeature_ctor p).2 = p_log p ++ [FEATURE_NOT_FOUND_MSG] /\
  live_parsers (p_res (SecNativeFeature_ctor p).2) = S (live_parsers (p_res p)).
Proof.
  intros Hacc Hfx Hk1 Hk2 Hne. rewrite (ctor_two_roots p k1 v1 k2 v2) by done. cbn [fst snd _features p_log p_res live_parsers].
  assert (Habs : sm_abs (pFeatures (handle_events {| curr_name := ""; pFeatures := sm_empty; depth := 0%Z |}
                                   (element_events k1 v1))) = list_to_map (stored_entries [(k1, v1)])).
  { replace (element_events k1 v1) with (flat_map (fun '(k, v) => element_events k v) [(k1, v1)])
      by (simpl; by rewrite app_nil_r).
    rewrite handle_elements; cbn [pFeatures]; [|apply sm_wf_empty|by repeat constructor|
      by repeat constructor; set_solver|intros k _; by rewrite sm_abs_empty].
    by rewrite sm_abs_empty, map_union_empty. }
  split; [done|]. split; [|done].
  rewrite sm_find_abs, Habs. unfold stored_entries. rewrite filter_cons. cbn [snd].
  destruct (decide _); simpl; [by rewrite lookup_insert_ne by congruence|done].
Qed.

End EndToEnd.

(** ** Concrete runs *)

(** A value of 1200 characters: the document spans two buffers. *)
Definition long_value : string := concat_frags (List.repeat "0123456789"%string 120).

Definition long_doc : string := feature_doc "FeatureSet" [("A", "true"); ("LONG", long_value)].

Definition long_file (fault : option nat) : file :=
  {| contents := long_doc; readable := true; read_fault := fault |}.

Definition long_fp (fault : option nat) : FILE :=
  {| f_file := long_file fault; f_pos := 0; f_error := false |}.

Definition long_fs (fault : option nat) : filesystem := {[ FEATURE_XML := long_file fault ]}.

(** A fault at byte 1100, in the second buffer: the entries already
    in the map stay, nothing of the document is stored. *)
Lemma loadFeature_read_error_witness :
  _loadFeature (M := SortedAssoc.t) (long_fs (Some 1100)) [("X", "1")] res0 (Some FEATURE_XML) None =
    ((-1)%Z, [("X", "1")], {| open_files := 0; live_parsers := 1 |}).
Proof.
  rewrite (loadFeature_read_error (M := SortedAssoc.t) (long_fs (Some 1100)) [("X", "1")] res0 (Some FEATURE_XML) None
             (long_fp (Some 1100)) 1100); [vm_compute; reflexivity|reflexivity|reflexivity|vm_compute; lia].
Defined.

Definition doc_entries : list (string * string) :=
  [("A", "true"); ("B", ""); ("C", "7"); ("D", "x<y & z
w"); ("N", "-42")].

(** [loads_feature_doc] on concrete data: every conjunct evaluates. *)
Local Ltac loads_concrete :=
  split; [reflexivity|split; [reflexivity|split; [reflexivity|split; decide_concrete]]].

Definition doc_fs : filesystem := {[ FEATURE_XML := feature_file (feature_doc "FeatureSet" doc_entries) ]}.

Lemma ctor_loads_feature_doc_witness :
  sm_abs (_features (SecNativeFeature_ctor (process0 doc_fs)).1) =
    list_to_map (stored_entries doc_entries) /\
  p_res (SecNativeFeature_ctor (process0 doc_fs)).2 = res0 /\
  p_log (SecNativeFeature_ctor (process0 doc_fs)).2 = [].
Proof.
  apply (ctor_loads_feature_doc (process0 doc_fs) "FeatureSet" doc_entries).
  loads_concrete.
Defined.

Lemma getString_roundtrip_witness :
  getString (SecNativeFeature_ctor (process0 doc_fs)).1 "D" = "x<y & z
w"%string /\
  getString (SecNativeFeature_ctor (process0 doc_fs)).1 "B" = ""%string.
Proof.
  split.
  - apply (getString_roundtrip (process0 doc_fs) "FeatureSet" doc_entries "D" "x<y & z
w");
      [loads_concrete|decide_concrete].
  - apply (getString_roundtrip (process0 doc_fs) "FeatureSet" doc_entries "B" "");
      [loads_concrete|decide_concrete].
Defined.

Lemma getInteger_roundtrip_witness :
  getInteger (SecNativeFeature_ctor (process0 doc_fs)).1 "C" = 7%Z /\
  getInteger (SecNativeFeature_ctor (process0 doc_fs)).1 "N" = (-42)%Z.
Proof.
  split.
  - apply (getInteger_roundtrip (process0 doc_fs) "FeatureSet" doc_entries "C" 7);
      [loads_concrete|decide_concrete|vm_compute; split; discriminate].
  - apply (getInteger_roundtrip (process0 doc_fs) "FeatureSet" doc_entries "N" (-42));
      [loads_concrete|decide_concrete|vm_compute; split; discriminate].
Defined.

Lemma two_roots_rejected_witness :
  let p := process0 {[ FEATURE_XML := feature_file (element "A" "true" ++ element "B" "7") ]} in
  sm_abs (_features (SecNativeFeature_ctor p).1) = list_to_map (stored_entries [("A", "true")]) /\
  sm_find "B" (_features (SecNativeFeature_ctor p).1) = None /\
  p_log (SecNativeFeature_ctor p).2 = p_log p ++ [FEATURE_NOT_FOUND_MSG] /\
  live_parsers (p_res (SecNativeFeature_ctor p).2) = S (live_parsers (p_res p)).
Proof.
  cbv zeta. apply (two_roots_rejected _ "A" "true" "B" "7"); [reflexivity|reflexivity|reflexivity|reflexivity|discriminate].
Defined.
