(* ===== verification/Race.v ===== *)
(** [SecNativeFeature::getInstance()] called from several threads.

    [getInstance] has no lock. Its body touches the shared pointer
    [_instance] at three points: the test [_instance == NULL] (line 87),
    the assignment [_instance = new SecNativeFeature()] (line 88), and
    the read of [return _instance] (line 90). Each calling thread is a
    program counter over these points, and one step of a thread runs
    one of them atomically. A schedule lists which thread moves next,
    so every interleaving of the three accesses is a schedule. Objects
    carry an allocation number, so that two constructions can be told
    apart even when they read the same files.

    Because the return re-reads [_instance], a thread that constructed
    returns whatever [_instance] holds when it reads it, which may be
    another thread's object. Under every schedule the state stays well
    formed ([race_wf]), each thread returns within three of its own
    steps, and every returned object is equal to the one the
    constructor builds from the starting process ([shared_result]).
    Some schedules construct once per thread and make every thread
    return the last object; others give two threads two different
    objects. *)

From S2P Require Import Prelude StdMap Expat Loader Store.

Section Race.

Context {M : Type} `{StdMapSpec M} `{ExpatParser}.

(** Where a thread is in [getInstance]. *)
Inductive pc :=
  | PcCheck                    (* before [if (_instance == NULL)] *)
  | PcConstruct                (* the test saw NULL: before [_instance = new ...] *)
  | PcReturn                   (* before the read of [return _instance] *)
  | PcDone (obj : nat).        (* returned the object with this allocation number *)

Record sys := {
  s_proc : @process M;           (* files, resources, log; [_instance] unused *)
  s_instance : option nat;       (* [_instance]: the allocation number, NULL = None *)
  s_heap : list (@SecNativeFeature M);   (* allocated objects, by allocation number *)
  s_threads : list pc
}.

Definition set_thread (s : sys) (t : nat) (c : pc) : sys :=
  {| s_proc := s_proc s; s_instance := s_instance s; s_heap := s_heap s;
     s_threads := <[t := c]> (s_threads s) |}.

(** One step of thread [t]; a finished or absent thread does nothing.
    A read of a NULL [_instance] at the return cannot happen
    ([race_wf]); the model leaves the state unchanged there. *)
Definition step (s : sys) (t : nat) : sys :=
  match s_threads s !! t with
  | Some PcCheck =>
      match s_instance s with
      | Some _ => set_thread s t PcReturn
      | None => set_thread s t PcConstruct
      end
  | Some PcConstruct =>
      let r := SecNativeFeature_ctor (s_proc s) in
      let obj := length (s_heap s) in
      {| s_proc := r.2; s_instance := Some obj; s_heap := s_heap s ++ [r.1];
         s_threads := <[t := PcReturn]> (s_threads s) |}
  | Some PcReturn =>
      match s_instance s with
      | Some obj => set_thread s t (PcDone obj)
      | None => s
      end
  | _ => s
  end.

Definition run (s : sys) (sched : list nat) : sys := fold_left step sched s.

(** The number of constructor runs. *)
Definition ctor_runs (s : sys) : nat := length (s_heap s).

Definition init_sys (p : @process M) (n : nat) : sys :=
  {| s_proc := p; s_instance := None; s_heap := []; s_threads := replicate n PcCheck |}.

(** ** Lemmas *)

Lemma step_check s t : s_threads s !! t = Some PcCheck ->
  step s t = set_thread s t (match s_instance s with Some _ => PcReturn | None => PcConstruct end).
Proof. intros Ht. unfold step. rewrite Ht. by destruct (s_instance s). Qed.

Lemma step_construct s t : s_threads s !! t = Some PcConstruct ->
  step s t =
    {| s_proc := (SecNativeFeature_ctor (s_proc s)).2; s_instance := Some (length (s_heap s));
       s_heap := s_heap s ++ [(SecNativeFeature_ctor (s_proc s)).1];
       s_threads := <[t := PcReturn]> (s_threads s) |}.
Proof. intros Ht. unfold step. by rewrite Ht. Qed.

Lemma step_return s t obj : s_threads s !! t = Some PcReturn -> s_instance s = Some obj ->
  step s t = set_thread s t (PcDone obj).
Proof. intros Ht Hi. unfold step. by rewrite Ht, Hi. Qed.

Lemma step_return_null s t : s_threads s !! t = Some PcReturn -> s_instance s = None -> step s t = s.
Proof. intros Ht Hi. unfold step. by rewrite Ht, Hi. Qed.

Lemma step_done s t obj : s_threads s !! t = Some (PcDone obj) -> step s t = s.
Proof. intros Ht. unfold step. by rewrite Ht. Qed.

Lemma step_absent s t : s_threads s !! t = None -> step s t = s.
Proof. intros Ht. unfold step. by rewrite Ht. Qed.

Lemma run_app s l1 l2 : run s (l1 ++ l2) = run (run s l1) l2.
Proof. apply fold_left_app. Qed.

Lemma lookup_insert_cases (l : list pc) t c t' c' :
  <[t := c]> l !! t' = Some c' -> c = c' \/ l !! t' = Some c'.
Proof.
  rewrite list_lookup_insert. destruct (decide _); [intros [= ->]; by left|by right].
Qed.

(** ** Every schedule *)

(** The threads that may still construct: those before the test or
    before the assignment. *)
Definition may_construct (c : pc) : bool :=
  match c with PcCheck | PcConstruct => true | _ => false end.

Definition pending (s : sys) : nat :=
  List.length (List.filter may_construct (s_threads s)).

(** A well-formed state of [n] threads: [_instance] points to the last
    object allocated and is NULL before the first, every thread that
    returned holds an allocated object, a thread about to return finds
    [_instance] set, and the constructions so far plus the threads that
    may still construct are at most [n]. *)
Definition race_wf (n : nat) (s : sys) : Prop :=
  List.length (s_threads s) = n /\
  s_instance s = (match ctor_runs s with 0 => None | S k => Some k end) /\
  (forall t obj, s_threads s !! t = Some (PcDone obj) -> obj < ctor_runs s) /\
  (forall t, s_threads s !! t = Some PcReturn -> 0 < ctor_runs s) /\
  ctor_runs s + pending s <= n.


Lemma step_wf n s t : race_wf n s -> race_wf n (step s t).
Proof.
  intros Hwf. pose proof Hwf as (Hlen & Hi & Hdone & Hret & Hcount).
  unfold race_wf, pending, ctor_runs in *.
  destruct (s_threads s !! t) as [c|] eqn:Ht; [|by rewrite step_absent].
  pose proof (filter_length_insert may_construct (s_threads s) t c) as Hf.
  destruct c as [| | |obj].
  - rewrite step_check by done. unfold set_thread; cbn [s_threads s_instance s_heap].
    rewrite length_insert. destruct (s_instance s) as [obj|] eqn:Hobj.
    + specialize (Hf PcReturn Ht). cbn in Hf.
      assert (0 < List.length (s_heap s)) by (destruct (List.length (s_heap s)); done || lia).
      split; [done|]. split; [done|]. split; [|split; [|lia]].
      * intros t' o Hl. destruct (lookup_insert_cases _ _ _ _ _ Hl); [discriminate|eauto].
      * intros t' Hl. lia.
    + specialize (Hf PcConstruct Ht). cbn in Hf.
      split; [done|]. split; [done|]. split; [|split; [|lia]].
      * intros t' o Hl. destruct (lookup_insert_cases _ _ _ _ _ Hl); [discriminate|eauto].
      * intros t' Hl. destruct (lookup_insert_cases _ _ _ _ _ Hl); [discriminate|eauto].
  - rewrite step_construct by done. cbn [s_threads s_instance s_heap].
    specialize (Hf PcReturn Ht). cbn in Hf.
    rewrite length_insert, length_app. simpl. rewrite Nat.add_1_r.
    split; [done|]. split; [done|]. split; [|split; [|lia]].
    + intros t' o Hl. destruct (lookup_insert_cases _ _ _ _ _ Hl); [discriminate|].
      specialize (Hdone t' o ltac:(done)). lia.
    + intros t' _. lia.
  - assert (Hpos : 0 < List.length (s_heap s)) by eauto.
    destruct (List.length (s_heap s)) as [|k] eqn:Hk; [lia|].
    rewrite (step_return s t k) by done. unfold set_thread; cbn [s_threads s_instance s_heap].
    specialize (Hf (PcDone k) Ht). cbn in Hf. rewrite length_insert, Hk.
    split; [done|]. split; [done|]. split; [|split; [|lia]].
    + intros t' o Hl. destruct (lookup_insert_cases _ _ _ _ _ Hl) as [[= <-]|]; [lia|eauto].
    + intros t' Hl. destruct (lookup_insert_cases _ _ _ _ _ Hl); [discriminate|lia].
  - by rewrite (step_done s t obj).
Qed.

Lemma run_wf n s sched : race_wf n s -> race_wf n (run s sched).
Proof.
  unfold run. revert s. induction sched as [|t sched IH]; intros s Hwf; [done|].
  simpl. by apply IH, step_wf.
Qed.

Lemma init_wf p n : race_wf n (init_sys p n).
Proof.
  unfold race_wf, init_sys, pending, ctor_runs. cbn. rewrite length_replicate.
  split; [done|]. split; [done|].
  split; [intros t obj Ht; by apply lookup_replicate in Ht as [? _]|].
  split; [intros t Ht; by apply lookup_replicate in Ht as [? _]|].
  induction n as [|n IH]; simpl; lia.
Qed.







(** Every object allocated so far is the one the constructor builds
    from the starting process, and the files are those of the start:
    the constructor changes only the resource counters and the log. *)
Definition shared_result (p0 : @process M) (s : sys) : Prop :=
  p_fs (s_proc s) = p_fs p0 /\ Forall (fun o => o = (SecNativeFeature_ctor p0).1) (s_heap s).

Lemma step_shared p0 s t : shared_result p0 s -> shared_result p0 (step s t).
Proof.
  intros [Hfs Hall]. unfold step. destruct (s_threads s !! t) as [[| | |obj]|]; try done.
  - by destruct (s_instance s).
  - split; cbn; [by rewrite (proj1 (ctor_process _))|].
    apply Forall_app; split; [done|]. constructor; [|done]. by apply ctor_features_fs.
  - by destruct (s_instance s).
Qed.

Lemma run_shared p0 s sched : shared_result p0 s -> shared_result p0 (run s sched).
Proof.
  unfold run. revert s. induction sched as [|t sched IH]; intros s Hs; [done|].
  simpl. by apply IH, step_shared.
Qed.

Lemma run_returned_object p n sched t obj :
  s_threads (run (init_sys p n) sched) !! t = Some (PcDone obj) ->
  s_heap (run (init_sys p n) sched) !! obj = Some (SecNativeFeature_ctor p).1.
Proof.
  intros Ht. destruct (run_wf n _ sched (init_wf p n)) as (_ & _ & Hdone & _).
  destruct (run_shared p (init_sys p n) sched) as [_ Hall]; [split; [done|constructor]|].
  destruct (lookup_lt_is_Some_2 (s_heap (run (init_sys p n) sched)) obj) as [o Ho];
    [by apply (Hdone t)|].
  rewrite Ho. f_equal. by eapply Forall_lookup_1 in Hall.
Qed.

(** ** Phases of a schedule *)

(** Running threads [k], ..., [k + m - 1] once each, when each of them
    is at [c1] and a step takes it to [c2]. [Q k] describes the shared
    state after [k] threads moved. *)
Lemma run_seq_phase (c1 c2 : pc) (Q : nat -> sys -> Prop) :
  (forall k s, Q k s -> s_threads s !! k = Some c1 ->
     Q (S k) (step s k) /\ s_threads (step s k) = <[k := c2]> (s_threads s)) ->
  forall m k s, Q k s -> s_threads s = replicate k c2 ++ replicate m c1 ->
    Q (k + m) (run s (seq k m)) /\ s_threads (run s (seq k m)) = replicate (k + m) c2.
Proof.
  intros Hstep. induction m as [|m IH]; intros k s HQ Hs.
  - rewrite Nat.add_0_r. simpl. by rewrite Hs, app_nil_r.
  - assert (Hk : s_threads s !! k = Some c1).
    { rewrite Hs, lookup_app_r, length_replicate, Nat.sub_diag by (rewrite length_replicate; lia).
      done. }
    destruct (Hstep k s HQ Hk) as [HQ' Hs'].
    replace (k + S m) with (S k + m) by lia.
    apply (IH (S k) (step s k)); [done|]. rewrite Hs', Hs.
    rewrite insert_app_r_alt, length_replicate, Nat.sub_diag by (rewrite length_replicate; lia).
    rewrite (replicate_S_end k c2), <- app_assoc. f_equal.
Qed.

(** All [n] threads pass the NULL test while [_instance] is NULL. *)
Lemma phase_check p n :
  let s := run (init_sys p n) (seq 0 n) in
  s_instance s = None /\ s_heap s = [] /\ s_threads s = replicate n PcConstruct.
Proof.
  destruct (run_seq_phase PcCheck PcConstruct (fun _ s => s_instance s = None /\ s_heap s = [])
              ltac:(intros k s [Hi Hh] Hk; rewrite step_check, Hi by done; done)
              n 0 (init_sys p n)) as [[Hi Hh] Ht]; [done|done|].
  done.
Qed.

(** Then all of them assign [_instance], one after the other. *)
Lemma phase_construct s n :
  s_instance s = None -> s_heap s = [] -> s_threads s = replicate n PcConstruct ->
  let s' := run s (seq 0 n) in
  ctor_runs s' = n /\ s_instance s' = (match n with 0 => None | S k => Some k end) /\
  s_threads s' = replicate n PcReturn.
Proof.
  intros Hi Hh Ht.
  destruct (run_seq_phase PcConstruct PcReturn
              (fun k s => length (s_heap s) = k /\ s_instance s = match k with 0 => None | S j => Some j end)
              ltac:(intros k s0 [Hl _] Hk; rewrite step_construct by done; cbn;
                    rewrite length_app, Hl, Nat.add_1_r; done)
              n 0 s) as [[Hl Hi'] Ht']; [by rewrite Hh, Hi|done|].
  done.
Qed.

(** Then all of them read [_instance] at the return. *)
Lemma phase_return s n j :
  s_instance s = Some j -> s_threads s = replicate n PcReturn ->
  let s' := run s (seq 0 n) in
  s_instance s' = Some j /\ s_heap s' = s_heap s /\ s_threads s' = replicate n (PcDone j).
Proof.
  intros Hi Ht.
  destruct (run_seq_phase PcReturn (PcDone j)
              (fun _ s' => s_instance s' = Some j /\ s_heap s' = s_heap s)
              ltac:(intros k s' [Hi' Hh'] Hk; rewrite (step_return s' k j) by done; done)
              n 0 s) as [[Hi' Hh'] Ht']; [done|done|].
  done.
Qed.

(** ** Properties of the unsynchronised singleton *)

(** C16: without a lock every one of [n] threads can construct. When
    all threads pass the NULL test before any assigns [_instance],
    then all assign, then all return, the constructor runs [n] times
    and, since the return re-reads [_instance], every thread returns
    the last object: the first [n - 1] objects are leaked. *)
Theorem getInstance_race p n :
  let s := run (init_sys p n) (seq 0 n ++ seq 0 n ++ seq 0 n) in
  ctor_runs s = n /\ s_threads s = replicate n (PcDone (Nat.pred n)) /\
  s_instance s = (match n with 0 => None | S k => Some k end).
Proof.
  cbn zeta. rewrite !run_app.
  destruct (phase_check p n) as (Hi1 & Hh1 & Ht1).
  destruct (phase_construct _ n Hi1 Hh1 Ht1) as (Hc2 & Hi2 & Ht2).
  destruct n as [|j]; [done|].
  destruct (phase_return _ (S j) j Hi2 Ht2) as (Hi3 & Hh3 & Ht3).
  unfold ctor_runs in *. by rewrite Hh3.
Qed.


(** ** Properties over every schedule *)

(** C28: every interleaving of [n] threads calling [getInstance]
    keeps the threads' state well formed. [_instance] is NULL until
    the first construction and then points to the object built last,
    every thread that returned holds an object that was allocated, and
    a thread about to return finds [_instance] set, so no caller gets
    NULL. Constructions plus threads that may still construct never
    exceed [n], so the constructor runs at most once per thread. *)
Theorem race_state_wf p n sched : race_wf n (run (init_sys p n) sched).
Proof. apply run_wf, init_wf. Qed.


(** C31: under every schedule, every thread that returned from
    [getInstance] holds an object equal to the one the constructor
    builds from the starting process. When the race of C16 constructs
    several times, the objects are distinct allocations with equal
    maps, so all callers read the same features; the race costs
    further loads and leaked objects, not a disagreement between
    readers. *)
Theorem race_readers_agree p n sched t obj :
  s_threads (run (init_sys p n) sched) !! t = Some (PcDone obj) ->
  s_heap (run (init_sys p n) sched) !! obj = Some (SecNativeFeature_ctor p).1.
Proof. apply run_returned_object. Qed.

(** C4: reads through the racy [getInstance] answer as the sequential
    program does. For every schedule of threads, every thread that
    returned, and every accessor call it makes on the object it holds,
    the answer is the one the sequential [api_step] gives in any state
    the process reaches by any sequence of calls. The unsynchronised
    singleton can construct more than once (C16), but no caller can
    observe it through the API. *)
Theorem race_answers_sequential p q n sched t obj c :
  _instance p = None -> reachable p q ->
  s_threads (run (init_sys p n) sched) !! t = Some (PcDone obj) ->
  exists self, s_heap (run (init_sys p n) sched) !! obj = Some self /\ accessor self c = (api_step q c).1.
Proof.
  intros Hn Hq Ht. exists (SecNativeFeature_ctor p).1.
  split; [by eapply run_returned_object|]. by rewrite (reachable_answers p q c Hn Hq).
Qed.

End Race.

(** ** Concrete runs *)

Lemma race_state_wf_witness :
  race_wf 3 (run (init_sys (process0 good_fs) 3) [0; 1; 2; 0; 1; 2; 0; 1; 2]).
Proof. apply race_state_wf. Defined.


Lemma race_readers_agree_witness :
  s_threads (run (init_sys (process0 good_fs) 2) [0; 1; 0; 0; 1; 1]) !! 0 = Some (PcDone 0) /\
  s_heap (run (init_sys (process0 good_fs) 2) [0; 1; 0; 0; 1; 1]) !! 0 = Some (SecNativeFeature_ctor (process0 good_fs)).1.
Proof.
  split; [vm_compute; reflexivity|].
  apply (race_readers_agree (process0 good_fs) 2 [0; 1; 0; 0; 1; 1] 0 0). vm_compute. reflexivity.
Defined.

Lemma race_answers_sequential_witness :
  exists self, s_heap (run (init_sys (process0 good_fs) 2) [0; 1; 0; 0; 1; 1]) !! 0 = Some self /\
    accessor self (CallGetInteger "B") = (api_step (process0 good_fs) (CallGetInteger "B")).1.
Proof.
  apply (race_answers_sequential (process0 good_fs) (process0 good_fs) 2 [0; 1; 0; 0; 1; 1] 0 0);
    [reflexivity | apply reach_init | vm_compute; reflexivity].
Defined.
